(** * CELLINT-RC: the report parser and the identifier synthesis engine

    A shallow embedding of [DataAnalyzer.parse_report_content],
    [DataAnalyzer.calculate_possible_imsis] and
    [DataAnalyzer.calculate_possible_imeis] of [cellint-rc.py], with the
    pieces of the Python runtime they rest on ([str], [int], [str.lower],
    [str.zfill], slices, the [re] patterns they use, [hashlib.sha256] and
    the [random] draws).

    Conventions.
    - A Python [str] is a Rocq [string]; each character stands for the code
      point of the same number, so the texts covered are the ones whose
      code points are below 256.
    - A Python [int] is a [Z]. [int] reads a literal of at most
      [int_max_str_digits] digits and [str] prints an integer of at most as
      many; beyond that both raise [ValueError]: the limit is the one that
      the interpreter starts with.
    - The values of device data are strings, integers, booleans and [None];
      floats, lists and dictionaries are not covered. On the strings covered
      [str.encode] does not raise.
    - A raised exception is a value of [pyexn]; code that may raise returns
      a [result].
    - [random] is a tape of draws that is read left to right.
    - [Logger.log] only prints and appends to the log file; it is left out,
      but not the text of a message that prints an integer: making that text
      can raise. *)

From Stdlib Require Import ZArith NArith Ascii String List Lia.
From stdpp Require Import base option list gmap strings.

Local Open Scope Z_scope.

(** ** Exceptions and results *)

Inductive pyexn := TypeError | ValueError.

Definition exn_name (e : pyexn) : string :=
  match e with
  | TypeError => "TypeError"
  | ValueError => "ValueError"
  end.

Inductive result (A : Type) :=
  | Ok (a : A)
  | Raise (e : pyexn).
Arguments Ok {A} a.
Arguments Raise {A} e.

#[global] Instance result_ret : MRet result := λ A a, Ok a.

#[global] Instance result_bind : MBind result := λ A B k r,
  match r with
  | Ok a => k a
  | Raise e => Raise e
  end.

Definition returns {A} (r : result A) : Prop := ∃ a, r = Ok a.

(** ** Characters *)

Definition code (c : ascii) : N := N_of_ascii c.

Definition in_range (lo hi : N) (c : ascii) : bool :=
  ((lo <=? code c) && (code c <=? hi))%N.

(** [\d] of [re] on code points below 256, and the digits [int] accepts. *)
Definition is_digit (c : ascii) : bool := in_range 48 57 c.

Definition digit_val (c : ascii) : Z := Z.of_N (code c) - 48.

(** [\s] of [re] and [str.isspace] on code points below 256. *)
Definition is_space (c : ascii) : bool :=
  in_range 9 13 c || in_range 28 32 c
  || (code c =? 133)%N || (code c =? 160)%N.

(** The blanks [int] strips: the same without the separators 28 to 31. *)
Definition is_int_space (c : ascii) : bool :=
  in_range 9 13 c || (code c =? 32)%N
  || (code c =? 133)%N || (code c =? 160)%N.

(** [\w] of [re] on code points below 256. *)
Definition is_word (c : ascii) : bool :=
  in_range 48 57 c || in_range 65 90 c || (code c =? 95)%N
  || in_range 97 122 c
  || (code c =? 170)%N || (code c =? 178)%N || (code c =? 179)%N
  || (code c =? 181)%N || (code c =? 185)%N || (code c =? 186)%N
  || in_range 188 190 c
  || in_range 192 214 c || in_range 216 246 c || in_range 248 255 c.

(** [.] without [re.DOTALL], and with it. *)
Definition is_dot (c : ascii) : bool := negb (code c =? 10)%N.
Definition is_any (c : ascii) : bool := true.

Definition is_char (a c : ascii) : bool := (code a =? code c)%N.

(** [str.lower] on one code point below 256. *)
Definition lower_char (c : ascii) : ascii :=
  if in_range 65 90 c || in_range 192 214 c || in_range 216 222 c
  then ascii_of_N (code c + 32)
  else c.

(** ** Strings *)

Definition chars (s : string) : list ascii := list_ascii_of_string s.
Definition str_of (l : list ascii) : string := string_of_list_ascii l.

(** [s.lower()] *)
Definition lower (s : string) : string := str_of (lower_char <$> chars s).

Definition all_digits (s : string) : bool := forallb is_digit (chars s).

Definition digit_char (n : N) : ascii := ascii_of_N (48 + n).

Fixpoint digits_of_N (fuel : nat) (n : N) (acc : list ascii) : list ascii :=
  match fuel with
  | O => acc
  | S fuel' =>
      let acc' := digit_char (n mod 10) :: acc in
      if (n / 10 =? 0)%N then acc' else digits_of_N fuel' (n / 10) acc'
  end.

(** The decimal text of the integer [n]: what [str(n)] gives when [n] is
    within the limit of [str], as a number below 10^9 is. *)
Definition str_of_Z (z : Z) : string :=
  let n := Z.abs_N z in
  let ds := digits_of_N (S (N.size_nat n)) n [] in
  str_of (if z <? 0 then "-"%char :: ds else ds).

(** [s.zfill(width)]: zeros go after a leading sign. *)
Definition zfill (width : nat) (s : string) : string :=
  let l := chars s in
  let pad := replicate (width - length l)%nat "0"%char in
  match l with
  | c :: l' =>
      if is_char "+" c || is_char "-" c then str_of (c :: pad ++ l')
      else str_of (pad ++ l)
  | [] => str_of pad
  end.

(** [l[:n]] on a list: a negative bound counts from the end. *)
Definition slice_to {A} (l : list A) (n : Z) : list A :=
  if n <? 0 then take (length l - Z.to_nat (- n))%nat l
  else take (Z.to_nat n) l.

(** [s[:n]] on a string, for a bound that is not negative. *)
Definition str_take (n : nat) (s : string) : string := str_of (take n (chars s)).

(** ** [int] *)

(** The digits of an integer literal, with single underscores between
    digits. *)
Fixpoint int_digits (l : list ascii) (acc : Z) (after_digit : bool) : option Z :=
  match l with
  | [] => if after_digit then Some acc else None
  | c :: l' =>
      if is_digit c then int_digits l' (10 * acc + digit_val c) true
      else if is_char "_" c then
        (if after_digit then int_digits l' acc false else None)
      else None
  end.

Fixpoint lstrip (p : ascii → bool) (l : list ascii) : list ascii :=
  match l with
  | c :: l' => if p c then lstrip p l' else l
  | [] => []
  end.

Definition strip (p : ascii → bool) (l : list ascii) : list ascii :=
  reverse (lstrip p (reverse (lstrip p l))).

Definition int_literal (l : list ascii) : option Z :=
  match strip is_int_space l with
  | c :: l' =>
      if is_char "-" c then Z.opp <$> int_digits l' 0 false
      else if is_char "+" c then int_digits l' 0 false
      else int_digits (c :: l') 0 false
  | [] => None
  end.

(** [sys.get_int_max_str_digits()] *)
Definition int_max_str_digits : Z := 4300.

Fixpoint count_digits (l : list ascii) : Z :=
  match l with
  | [] => 0
  | c :: l' => (if is_digit c then 1 else 0) + count_digits l'
  end.

(** A text of no more digits than the limit. *)
Definition sized (s : string) : bool :=
  count_digits (chars s) <=? int_max_str_digits.

(** [int(s)] for a string [s]: a literal of more digits than the limit
    raises [ValueError], as a text that is no literal does. *)
Definition int_of_str (s : string) : result Z :=
  match int_literal (chars s) with
  | Some z => if sized s then Ok z else Raise ValueError
  | None => Raise ValueError
  end.

(** ** [hashlib.sha256] *)

Module SHA256.
Local Open Scope N_scope.

Definition mask32 : N := 0xffffffff.
Definition add32 (x y : N) : N := N.land (x + y) mask32.
Definition not32 (x : N) : N := N.lxor x mask32.
Definition rotr (n x : N) : N :=
  N.lor (N.shiftr x n) (N.land (N.shiftl x (32 - n)) mask32).

Definition ch (x y z : N) : N := N.lxor (N.land x y) (N.land (not32 x) z).
Definition maj (x y z : N) : N :=
  N.lxor (N.lxor (N.land x y) (N.land x z)) (N.land y z).
Definition bsig0 (x : N) : N := N.lxor (N.lxor (rotr 2 x) (rotr 13 x)) (rotr 22 x).
Definition bsig1 (x : N) : N := N.lxor (N.lxor (rotr 6 x) (rotr 11 x)) (rotr 25 x).
Definition ssig0 (x : N) : N := N.lxor (N.lxor (rotr 7 x) (rotr 18 x)) (N.shiftr x 3).
Definition ssig1 (x : N) : N := N.lxor (N.lxor (rotr 17 x) (rotr 19 x)) (N.shiftr x 10).

(** The round constants and the initial state are the first 32 bits of the
    fractional parts of the cube roots of the first 64 primes, and of the
    square roots of the first 8. *)
Definition is_prime (n : nat) : bool :=
  forallb (λ d, negb (n `mod` d =? 0)%nat) (seq 2 (n - 2)).

Definition primes (bound : nat) : list N :=
  N.of_nat <$> filter (λ n, is_prime n = true) (seq 2 (bound - 2)).

(** The largest [r] below [2 ^ bits] whose cube is at most [n]. *)
Fixpoint cube_root (bits : nat) (n r : N) : N :=
  match bits with
  | O => r
  | S bits' =>
      let r' := r + 2 ^ N.of_nat bits' in
      cube_root bits' n (if r' * r' * r' <=? n then r' else r)
  end.

Definition K : list N := Eval vm_compute in
  (λ q, N.land (cube_root 35 (N.shiftl q 96) 0) mask32) <$> primes 312.

Definition H0 : list N := Eval vm_compute in
  (λ q, N.land (N.sqrt (N.shiftl q 64)) mask32) <$> primes 20.

(** The bytes of [n] on [k] bytes, most significant first. *)
Fixpoint be_bytes (k : nat) (n : N) : list N :=
  match k with
  | O => []
  | S k' => be_bytes k' (N.shiftr n 8) ++ [N.land n 0xff]
  end.

Definition pad (msg : list N) : list N :=
  let len := N.of_nat (length msg) in
  let zeros := N.to_nat ((55 + 64 - len mod 64) mod 64) in
  msg ++ [0x80] ++ replicate zeros 0 ++ be_bytes 8 (8 * len).

Definition word_of (bs : list N) : N :=
  foldl (λ acc b, N.lor (N.shiftl acc 8) b) 0 bs.

Fixpoint words (fuel : nat) (bs : list N) : list N :=
  match fuel with
  | O => []
  | S fuel' =>
      match bs with
      | [] => []
      | _ => word_of (take 4 bs) :: words fuel' (drop 4 bs)
      end
  end.

(** The message schedule; [recent] holds the words computed so far,
    latest first. *)
Fixpoint schedule (n : nat) (recent : list N) : list N :=
  match n with
  | O => reverse recent
  | S n' =>
      let w := add32 (add32 (ssig1 (recent !!! 1%nat)) (recent !!! 6%nat))
                     (add32 (ssig0 (recent !!! 14%nat)) (recent !!! 15%nat)) in
      schedule n' (w :: recent)
  end.

Definition round (st : list N) (kw : N * N) : list N :=
  match st with
  | [a; b; c; d; e; f; g; h] =>
      let t1 := add32 (add32 (add32 h (bsig1 e)) (add32 (ch e f g) kw.1)) kw.2 in
      let t2 := add32 (bsig0 a) (maj a b c) in
      [add32 t1 t2; a; b; c; add32 d t1; e; f; g]
  | _ => st
  end.

Definition compress (h : list N) (block : list N) : list N :=
  let w := schedule 48 (reverse block) in
  zip_with add32 h (foldl round h (zip K w)).

Fixpoint blocks (fuel : nat) (ws : list N) (h : list N) : list N :=
  match fuel with
  | O => h
  | S fuel' =>
      match ws with
      | [] => h
      | _ => blocks fuel' (drop 16 ws) (compress h (take 16 ws))
      end
  end.

Definition digest (msg : list N) : list N :=
  let bs := pad msg in
  let ws := words (length bs) bs in
  blocks (length ws) ws H0.

Definition hex_char (n : N) : ascii :=
  if n <? 10 then ascii_of_N (48 + n) else ascii_of_N (87 + n).

Fixpoint hex_of (k : nat) (n : N) : list ascii :=
  match k with
  | O => []
  | S k' => hex_of k' (N.shiftr n 4) ++ [hex_char (N.land n 0xf)]
  end.

(** [hashlib.sha256(msg).hexdigest()] *)
Definition hexdigest (msg : list N) : string :=
  str_of (mjoin (hex_of 8 <$> digest msg)).
End SHA256.

(** [s.encode()]: UTF-8, one byte below 128 and two bytes from there on. *)
Definition encode (s : string) : list N :=
  mjoin ((λ c, if (code c <? 128)%N then [code c]
               else [N.lor 0xc0 (N.shiftr (code c) 6);
                     N.lor 0x80 (N.land (code c) 0x3f)]) <$> chars s).

(** ** The [re] patterns *)

(** The patterns of the parser are sequences of single characters and
    character classes, each with a quantifier, and of capture groups that
    are not nested. *)
Inductive quant := One | Opt | Star | Plus | LazyPlus.

Inductive node :=
  | Cls (p : ascii → bool) (q : quant)
  | Open
  | Close.

Definition lit (s : string) : list node := (λ c, Cls (is_char c) One) <$> chars s.

Section backtracking.
Context {R : Type}.
Variable p : ascii → bool.
Variable k : list ascii → option R.

Definition one (s : list ascii) : option R :=
  match s with
  | c :: s' => if p c then k s' else None
  | [] => None
  end.

Definition opt (s : list ascii) : option R :=
  match one s with
  | Some r => Some r
  | None => k s
  end.

(** As many as possible first. *)
Fixpoint greedy (s : list ascii) : option R :=
  match s with
  | c :: s' =>
      if p c then
        match greedy s' with
        | Some r => Some r
        | None => k s
        end
      else k s
  | [] => k []
  end.

(** As few as possible first. *)
Fixpoint lazy (s : list ascii) : option R :=
  match k s with
  | Some r => Some r
  | None =>
      match s with
      | c :: s' => if p c then lazy s' else None
      | [] => None
      end
  end.
End backtracking.

(** [run re s start caps] matches [re] at the head of [s]; [start] is the
    text at the last [Open], [caps] the groups closed so far. It returns the
    text left after the match and the groups. *)
Fixpoint run (re : list node) (s start : list ascii) (caps : list string)
    : option (list ascii * list string) :=
  match re with
  | [] => Some (s, caps)
  | Open :: re' => run re' s s caps
  | Close :: re' =>
      run re' s start (caps ++ [str_of (take (length start - length s) start)])
  | Cls p One :: re' => one p (λ s', run re' s' start caps) s
  | Cls p Opt :: re' => opt p (λ s', run re' s' start caps) s
  | Cls p Star :: re' => greedy p (λ s', run re' s' start caps) s
  | Cls p Plus :: re' => one p (greedy p (λ s', run re' s' start caps)) s
  | Cls p LazyPlus :: re' => one p (lazy p (λ s', run re' s' start caps)) s
  end.

Definition match_at (re : list node) (s : list ascii) := run re s s [].

(** [re.search]: the first position with a match; the result is the list of
    groups. *)
Fixpoint re_search (re : list node) (s : list ascii) : option (list string) :=
  match match_at re s with
  | Some (_, caps) => Some caps
  | None =>
      match s with
      | _ :: s' => re_search re s'
      | [] => None
      end
  end.

(** [m.group(i)], for [i] from 1. *)
Definition group (m : list string) (i : nat) : string := m !!! (i - 1)%nat.

(** [re.findall]: the matches from left to right, each one starting where
    the one before ended; [skip] counts the characters of the last match
    still to pass. The patterns of the parser match no empty text. *)
Fixpoint re_findall_from (re : list node) (s : list ascii) (skip : nat)
    : list (list string) :=
  match s with
  | [] =>
      match skip, match_at re [] with
      | O, Some (_, caps) => [caps]
      | _, _ => []
      end
  | _ :: s' =>
      match skip with
      | S skip' => re_findall_from re s' skip'
      | O =>
          match match_at re s with
          | Some (rest, caps) =>
              caps :: re_findall_from re s' (length s - length rest - 1)
          | None => re_findall_from re s' 0
          end
      end
  end.

Definition re_findall (re : list node) (s : list ascii) : list (list string) :=
  re_findall_from re s 0.

(** ** The parsed report *)

(** The values the parser stores and the synthesis reads: strings and
    integers, and the booleans and [None] that device data can hold as
    well. *)
Inductive pyval :=
  | PStr (s : string)
  | PInt (z : Z)
  | PBool (b : bool)
  | PNone.

Record wifi_network := { ssid : string; rssi : Z; channel : Z }.

(** [report_data["wifi_info"]]: the one key "networks" and its list. *)
Record wifi_dict := { networks : list wifi_network }.

(** [report_data]: its six keys are fixed; the three maps and [cell_info]
    get their keys while parsing. *)
Record report := {
  device_info : gmap string string;
  permissions : gmap string bool;
  sim_info : gmap string string;
  wifi_info : wifi_dict;
  cell_info : gmap string pyval;
  timestamp : string
}.

(** [Device:\s*(.+?)\s*-\s*(.+)] *)
Definition device_re : list node :=
  lit "Device:" ++ [Cls is_space Star; Open; Cls is_dot LazyPlus; Close;
    Cls is_space Star; Cls (is_char "-") One; Cls is_space Star;
    Open; Cls is_dot Plus; Close].

(** [Android:\s*(.+?)\s*\(] *)
Definition android_re : list node :=
  lit "Android:" ++ [Cls is_space Star; Open; Cls is_dot LazyPlus; Close;
    Cls is_space Star; Cls (is_char "(") One].

(** [<label>\s*:\s*(\w+)] *)
Definition perm_re (label : string) : list node :=
  lit label ++ [Cls is_space Star; Cls (is_char ":") One; Cls is_space Star;
    Open; Cls is_word Plus; Close].

Definition perm_keys : list string := [
  "location_enabled"; "course_location"; "fine_location";
  "background_location"; "phone_state"; "write_access"; "wifi_state" ].

Definition perm_patterns : list (list node) := [
  perm_re "Is Location Enabled";
  perm_re "Course Location access";
  perm_re "Fine Location access";
  perm_re "Background Location access";
  perm_re "Phone State access";
  perm_re "Write access";
  perm_re "WiFi State access" ].

(** [SIM\(tm\):\s*(\w+),\s*(\d+),] *)
Definition sim_re : list node :=
  lit "SIM(tm):" ++ [Cls is_space Star; Open; Cls is_word Plus; Close;
    Cls (is_char ",") One; Cls is_space Star; Open; Cls is_digit Plus; Close;
    Cls (is_char ",") One].

(** [SSID:\s*(.+?)\n.+?RSSI:\s*(-?\d+).+?channel:\s*(\d+)] with [re.DOTALL] *)
Definition wifi_re : list node :=
  lit "SSID:" ++ [Cls is_space Star; Open; Cls is_any LazyPlus; Close;
    Cls (is_char "010") One; Cls is_any LazyPlus] ++ lit "RSSI:" ++
  [Cls is_space Star; Open; Cls (is_char "-") Opt; Cls is_digit Plus; Close;
    Cls is_any LazyPlus] ++ lit "channel:" ++
  [Cls is_space Star; Open; Cls is_digit Plus; Close].

(** [-- getCellLocation\s*=\s*(.+)] *)
Definition cell_re : list node :=
  lit "-- getCellLocation" ++ [Cls is_space Star; Cls (is_char "=") One;
    Cls is_space Star; Open; Cls is_dot Plus; Close].

(** [(\w+)\s*:\s*(-?\d+)] *)
Definition lte_re : list node :=
  [Open; Cls is_word Plus; Close; Cls is_space Star; Cls (is_char ":") One;
   Cls is_space Star; Open; Cls (is_char "-") Opt; Cls is_digit Plus; Close].

Definition lte_names : list string := [
  "mcc"; "mnc"; "tac"; "pci"; "rsrp"; "rsrq"; "rssnr"; "band"; "cid"; "nid";
  "asu"; "power" ].

(** The loop over [zip(perm_keys, perm_patterns)]. *)
Fixpoint parse_permissions (kps : list (string * list node)) (content : list ascii)
    (perms : gmap string bool) : gmap string bool :=
  match kps with
  | [] => perms
  | (key, pattern) :: kps' =>
      let perms' :=
        match re_search pattern content with
        | Some m => <[key := bool_decide (lower (group m 1) = "true")]> perms
        | None => perms
        end in
      parse_permissions kps' content perms'
  end.

(** The loop over [wifi_sections]; [networks] is the list it appends to. *)
Fixpoint parse_wifi (sections : list (list string)) (networks : list wifi_network)
    : result (list wifi_network) :=
  match sections with
  | [] => Ok networks
  | m :: sections' =>
      r ← int_of_str (group m 2);
      c ← int_of_str (group m 3);
      parse_wifi sections' (networks ++ [{| ssid := group m 1; rssi := r; channel := c |}])
  end.

(** The loop over [lte_params]. *)
Fixpoint parse_lte (lte_params : list (list string)) (cell : gmap string pyval)
    : result (gmap string pyval) :=
  match lte_params with
  | [] => Ok cell
  | m :: lte_params' =>
      let param := group m 1 in
      let value := group m 2 in
      if bool_decide (lower param ∈ lte_names) then
        v ← int_of_str value;
        parse_lte lte_params' (<[lower param := PInt v]> cell)
      else parse_lte lte_params' cell
  end.

(** [now] is [datetime.now().isoformat()]. *)
Definition parse_report_content (now : string) (content : string) : result report :=
  let text := chars content in
  let device :=
    match re_search device_re text with
    | Some m => <["hardware" := group m 2]> (<["model" := group m 1]> ∅)
    | None => ∅
    end in
  let device :=
    match re_search android_re text with
    | Some m => <["android_version" := group m 1]> device
    | None => device
    end in
  let perms := parse_permissions (zip perm_keys perm_patterns) text ∅ in
  let sim :=
    match re_search sim_re text with
    | Some m => <["mccmnc" := group m 2]> (<["operator" := group m 1]> ∅)
    | None => ∅
    end in
  networks ← parse_wifi (re_findall wifi_re text) [];
  let cell :=
    match re_search cell_re text with
    | Some m => <["location" := PStr (group m 1)]> ∅
    | None => ∅
    end in
  cell ← parse_lte (re_findall lte_re text) cell;
  mret {| device_info := device; permissions := perms; sim_info := sim;
          wifi_info := {| networks := networks |}; cell_info := cell;
          timestamp := now |}.

(** ** [random] *)

(** The generator: a tape of draws and the place of the next one. Every
    run of the program reads some tape. *)
Record rng := { tape : nat → nat; cursor : nat }.

Definition randbelow (n : nat) (g : rng) : nat * rng :=
  ((tape g (cursor g) `mod` n)%nat, {| tape := tape g; cursor := S (cursor g) |}).

(** [random.randint(lo, hi)] *)
Definition randint (lo hi : Z) (g : rng) : Z * rng :=
  let '(k, g') := randbelow (Z.to_nat (hi - lo + 1)) g in
  (lo + Z.of_nat k, g').

(** [random.choice(l)] *)
Definition choice (l : list string) (g : rng) : string * rng :=
  let '(k, g') := randbelow (length l) g in
  (l !!! k, g').

(** [''.join(str(random.randint(0, 9)) for _ in range(n))] *)
Fixpoint random_digits (n : nat) (g : rng) : string * rng :=
  match n with
  | O => ("", g)
  | S n' =>
      let '(d, g1) := randint 0 9 g in
      let '(s, g2) := random_digits n' g1 in
      (str_of_Z d +:+ s, g2)
  end.

(** ** Operations on values *)

(** The text that [str(v)] makes of [v]. *)
Definition py_text (v : pyval) : string :=
  match v with
  | PStr s => s
  | PInt z => str_of_Z z
  | PBool b => if b then "True" else "False"
  | PNone => "None"
  end.

(** [str] prints the integer [z]: it has no more digits than the limit. *)
Definition int_shown (z : Z) : bool := sized (str_of_Z z).

(** [str(v)], also what an f-string prints for [v]. *)
Definition py_str (v : pyval) : result string :=
  match v with
  | PInt z => if int_shown z then Ok (str_of_Z z) else Raise ValueError
  | _ => Ok (py_text v)
  end.

(** A boolean counts as the integer 0 or 1. *)
Definition as_int (v : pyval) : option Z :=
  match v with
  | PInt z => Some z
  | PBool b => Some (if b then 1 else 0)
  | _ => None
  end.

(** [int(v)] *)
Definition py_int (v : pyval) : result Z :=
  match v with
  | PStr s => int_of_str s
  | PInt z => Ok z
  | PBool b => Ok (if b then 1 else 0)
  | PNone => Raise TypeError
  end.

(** [a + b] *)
Definition py_add (a b : pyval) : result pyval :=
  match a, b with
  | PStr x, PStr y => Ok (PStr (x +:+ y))
  | _, _ =>
      match as_int a, as_int b with
      | Some x, Some y => Ok (PInt (x + y))
      | _, _ => Raise TypeError
      end
  end.

(** [a + s] for a string [s]; the sum is a string or the addition raises. *)
Definition py_add_str (a : pyval) (s : string) : result string :=
  r ← py_add a (PStr s);
  match r with
  | PStr x => Ok x
  | _ => Raise TypeError
  end.

(** [d.get(key, default)] *)
Definition py_get (d : gmap string pyval) (key : string) (dflt : pyval) : pyval :=
  default dflt (d !! key).

(** ** Synthesis of identifiers *)

Definition MAX_CALCULATIONS : Z := 100.

(** [range(n)] runs [max n 0] times. *)
Definition range_len (n : Z) : nat := Z.to_nat n.

Section imsi.
(** [list(set(l))]: the elements of [l], each once, in an order Python
    leaves open. *)
Variable list_of_set : list string → list string.

(** [math_imsi], line 233 *)
Definition math_imsi (mcc mnc tac : pyval) (pci ci : string) : result string :=
  pre ← py_add mcc mnc;
  t ← py_int tac;
  p ← int_of_str pci;
  c ← int_of_str ci;
  py_add_str pre (zfill 10 (str_of_Z ((t * p * c) `mod` 1000000000))).

(** The body of the loop, lines 228 to 238; [i] is below 100. *)
Definition imsi_step (mcc mnc tac : pyval) (pci ci : string) (i : Z)
    (possible_imsis : list string) (g : rng) : result (list string * rng) :=
  m ← py_str mcc;
  n ← py_str mnc;
  t ← py_str tac;
  let hash_str := encode (m +:+ n +:+ t +:+ pci +:+ ci +:+ str_of_Z i) in
  pre ← py_add mcc mnc;
  sha_imsi ← py_add_str pre (str_take 10 (SHA256.hexdigest hash_str));
  math ← math_imsi mcc mnc tac pci ci;
  pre ← py_add mcc mnc;
  let '(digits, g') := random_digits 10 g in
  rand_imsi ← py_add_str pre digits;
  mret (possible_imsis ++ [sha_imsi; math; rand_imsi], g').

Fixpoint imsi_loop (mcc mnc tac : pyval) (pci ci : string) (n : nat) (i : Z)
    (possible_imsis : list string) (g : rng) : result (list string * rng) :=
  match n with
  | O => Ok (possible_imsis, g)
  | S n' =>
      '(possible_imsis', g') ← imsi_step mcc mnc tac pci ci i possible_imsis g;
      imsi_loop mcc mnc tac pci ci n' (i + 1) possible_imsis' g'
  end.

(** The message of the log line, line 216, prints [count]. *)
Definition calculate_possible_imsis (device_data : gmap string pyval) (count : Z)
    (g : rng) : result (list string * rng) :=
  _ ← py_str (PInt count);
  let mcc := py_get device_data "mcc" (PStr "310") in
  let mnc := py_get device_data "mnc" (PStr "260") in
  let tac := py_get device_data "tac" (PStr "0000") in
  pci ← py_str (py_get device_data "pci" (PStr "0"));
  ci ← py_str (py_get device_data "ci" (PStr "0"));
  '(possible_imsis, g') ←
    imsi_loop mcc mnc tac pci ci (range_len (Z.min count MAX_CALCULATIONS)) 0 [] g;
  mret (slice_to (list_of_set possible_imsis) count, g').
End imsi.

(** [list_of_set] is sound when it lists each element of the set once. *)
Definition set_listing (list_of_set : list string → list string) : Prop :=
  ∀ l, NoDup (list_of_set l) ∧ ∀ x, x ∈ list_of_set l ↔ x ∈ l.

Definition tac_db : list string := ["35"; "01"; "86"].

(** The sum of lines 261 to 268. *)
Fixpoint luhn_total (digits : list ascii) (i : Z) (total : Z) : result Z :=
  match digits with
  | [] => Ok total
  | digit :: digits' =>
      d ← int_of_str (String digit "");
      let d :=
        if i `mod` 2 =? 0 then
          let d := d * 2 in
          if d >? 9 then d - 9 else d
        else d in
      luhn_total digits' (i + 1) (total + d)
  end.

(** Lines 261 to 270: the check digit of [base_imei]. *)
Definition check_digit (base_imei : string) : result Z :=
  total ← luhn_total (chars base_imei) 0 0;
  mret ((10 - total `mod` 10) `mod` 10).

(** The body of the loop, lines 251 to 271. *)
Definition imei_step (imeis : list string) (g : rng) : result (list string * rng) :=
  let '(tac, g1) := choice tac_db g in
  let '(serial, g2) := random_digits 12 g1 in
  let base_imei := tac +:+ serial in
  cd ← check_digit base_imei;
  mret (imeis ++ [base_imei +:+ str_of_Z cd], g2).

Fixpoint imei_loop (n : nat) (imeis : list string) (g : rng) : result (list string * rng) :=
  match n with
  | O => Ok (imeis, g)
  | S n' =>
      '(imeis', g') ← imei_step imeis g;
      imei_loop n' imeis' g'
  end.

(** The message of the log line, line 246, prints [count]. *)
Definition calculate_possible_imeis (count : Z) (g : rng) : result (list string * rng) :=
  _ ← py_str (PInt count);
  imei_loop (range_len (Z.min count MAX_CALCULATIONS)) [] g.

(** ** The Luhn check *)

(** The Luhn check that the docstring of [calculate_possible_imeis] names,
    as ISO/IEC 7812-1 defines it. Its sum goes over the digits from the
    right: the last digit counts as it is, the one before it is doubled (and
    9 taken off when that exceeds 9), and so on, every second one. *)
Fixpoint luhn_sum (rdigits : list ascii) (double : bool) : Z :=
  match rdigits with
  | [] => 0
  | c :: rdigits' =>
      let d := digit_val c in
      let d := if double then (if 2 * d >? 9 then 2 * d - 9 else 2 * d) else d in
      d + luhn_sum rdigits' (negb double)
  end.

(** A number given by its digits passes the check when the sum is a
    multiple of 10. *)
Definition luhn_valid (s : string) : bool :=
  forallb is_digit (chars s) && (luhn_sum (reverse (chars s)) false `mod` 10 =? 0).

(** ** Vocabulary of the statements *)

(** The number that the decimal digits [ds] add to [acc]. *)
Definition dec_value (ds : list ascii) (acc : Z) : Z :=
  foldl (λ a c, 10 * a + digit_val c) acc ds.

(** An optional minus sign and digits make a literal that [int] accepts. *)
Definition signed_digits (l : list ascii) : Prop :=
  ∃ sign ds, l = sign ++ ds ∧ (sign = [] ∨ sign = ["-"%char])
    ∧ ds ≠ [] ∧ Forall (λ c, is_digit c = true) ds.

(** The groups of a match of [lte_re], and of [wifi_re]: the ones that
    the parser passes to [int] are such literals. *)
Definition lte_groups (m : list string) : Prop :=
  ∃ w g, m = [w; g] ∧ signed_digits (chars g).

Definition wifi_groups (m : list string) : Prop :=
  ∃ a b c, m = [a; b; c] ∧ signed_digits (chars b) ∧ signed_digits (chars c).

(** The matches of the scan whose name, in lower case, is [k]. *)
Definition lte_hits (k : string) (ms : list (list string)) : list (list string) :=
  filter (λ m, lower (group m 1) = k) ms.

(** What the loop over [lte_params] leaves under [k]. *)
Definition lte_lookup (k : string) (ms : list (list string))
    (cell : gmap string pyval) : option pyval :=
  if bool_decide (k ∈ lte_names) then
    match last (lte_hits k ms) with
    | Some m =>
        match int_of_str (group m 2) with
        | Ok v => Some (PInt v)
        | Raise _ => None
        end
    | None => cell !! k
    end
  else cell !! k.

(** The parts of a report, as [parse_report_content] computes them. *)
Definition device_of (text : list ascii) : gmap string string :=
  let device :=
    match re_search device_re text with
    | Some m => <["hardware" := group m 2]> (<["model" := group m 1]> ∅)
    | None => ∅
    end in
  match re_search android_re text with
  | Some m => <["android_version" := group m 1]> device
  | None => device
  end.

Definition sim_of (text : list ascii) : gmap string string :=
  match re_search sim_re text with
  | Some m => <["mccmnc" := group m 2]> (<["operator" := group m 1]> ∅)
  | None => ∅
  end.

Definition location_of (text : list ascii) : gmap string pyval :=
  match re_search cell_re text with
  | Some m => <["location" := PStr (group m 1)]> ∅
  | None => ∅
  end.

(** What a permission line gives: its token, in lower case, is "true". *)
Definition perm_value (pattern : list node) (text : list ascii) : option bool :=
  (λ m, bool_decide (lower (group m 1) = "true")) <$> re_search pattern text.

Definition empty_report (now : string) : report :=
  {| device_info := ∅; permissions := ∅; sim_info := ∅;
     wifi_info := {| networks := [] |}; cell_info := ∅; timestamp := now |}.

(** No rule of the parser finds anything in [content]: no pattern of rules
    1 to 6 matches, and no match of the scan carries a name of the
    allow-list. *)
Definition unrecognized (content : string) : Prop :=
  let text := chars content in
  re_search device_re text = None
  ∧ re_search android_re text = None
  ∧ (∀ kp, kp ∈ zip perm_keys perm_patterns → re_search kp.2 text = None)
  ∧ re_search sim_re text = None
  ∧ re_findall wifi_re text = []
  ∧ re_search cell_re text = None
  ∧ (∀ m, m ∈ re_findall lte_re text → lower (group m 1) ∉ lte_names).

(** A lower-case hexadecimal digit. *)
Definition is_hex (c : ascii) : bool := is_digit c || in_range 97 102 c.

(** Ten lower-case hexadecimal digits; decimal digits are among them. *)
Definition ten_hex (sfx : string) : Prop :=
  length (chars sfx) = 10%nat ∧ Forall (λ c, is_hex c = true) (chars sfx).

(** A candidate: [mcc + mnc] and ten characters. *)
Definition imsi_shape (m n x : string) : Prop :=
  ∃ sfx, x = (m +:+ n) +:+ sfx ∧ ten_hex sfx.

#[global] Instance returns_dec {A} (r : result A) : Decision (returns r).
Proof.
  destruct r as [a|e]; [left; by exists a|right; by intros [a Ha]].
Defined.

(** The base components, lines 220 to 224. *)
Definition base_mcc (d : gmap string pyval) : pyval := py_get d "mcc" (PStr "310").
Definition base_mnc (d : gmap string pyval) : pyval := py_get d "mnc" (PStr "260").
Definition base_tac (d : gmap string pyval) : pyval := py_get d "tac" (PStr "0000").
Definition base_pci (d : gmap string pyval) : string := py_text (py_get d "pci" (PStr "0")).
Definition base_ci (d : gmap string pyval) : string := py_text (py_get d "ci" (PStr "0")).

(** The number of rounds of the two loops. *)
Definition rounds_of (count : Z) : nat := range_len (Z.min count MAX_CALCULATIONS).

(** A value that is a string of decimal digits: one or more, and no more
    than [int] reads. *)
Definition numeric_string (v : pyval) : Prop :=
  ∃ s, v = PStr s ∧ s ≠ "" ∧ all_digits s = true
    ∧ Z.of_nat (String.length s) ≤ int_max_str_digits.

(** A tape of zeros: every draw is the first choice. *)
Definition zero_tape : rng := {| tape := λ _, 0%nat; cursor := 0 |}.

(** An identifier as [calculate_possible_imeis] builds it: 14 digits and
    the check digit that lines 261 to 270 compute for them. *)
Definition imei_shape (x : string) : Prop :=
  String.length x = 15%nat ∧ all_digits x = true
  ∧ ∃ base cd, x = base +:+ str_of_Z cd ∧ String.length base = 14%nat
      ∧ check_digit base = Ok cd.

(** The inputs on which the synthesis of subscriber identifiers goes through:
    mcc and mnc are strings, [str] prints the tac, and [int] accepts the
    tac and the texts of the pci and of the cell-id. *)
Definition imsi_inputs_ok (d : gmap string pyval) : Prop :=
  (∃ m, base_mcc d = PStr m) ∧ (∃ n, base_mnc d = PStr n)
  ∧ returns (py_str (base_tac d))
  ∧ returns (py_int (base_tac d))
  ∧ returns (int_of_str (base_pci d))
  ∧ returns (int_of_str (base_ci d)).

(** [str] prints the five values that the synthesis reads. *)
Definition imsi_values_shown (d : gmap string pyval) : Prop :=
  returns (py_str (base_mcc d)) ∧ returns (py_str (base_mnc d))
  ∧ returns (py_str (base_tac d))
  ∧ returns (py_str (py_get d "pci" (PStr "0")))
  ∧ returns (py_str (py_get d "ci" (PStr "0"))).

(** The literals that the parser passes to [int] are of that size: the
    signal and the channel of every match of the WiFi pattern, and the
    number of every match of the scan whose name is in the allow-list. *)
Definition wifi_sized (m : list string) : bool :=
  sized (group m 2) && sized (group m 3).

Definition lte_sized (m : list string) : bool :=
  implb (bool_decide (lower (group m 1) ∈ lte_names)) (sized (group m 2)).

Definition literals_sized (content : string) : bool :=
  forallb wifi_sized (re_findall wifi_re (chars content))
  && forallb lte_sized (re_findall lte_re (chars content)).

(** The entries of [report_data["wifi_info"]]. *)
Definition wifi_items (w : wifi_dict) : list (string * list wifi_network) :=
  [("networks", networks w)].

(** ** Vocabulary of the further statements *)

(** The digit that the Luhn check gives to a position: doubled, with 9
    taken off above 9, or as it is. *)
Definition luhn_weight (double : bool) (d : Z) : Z :=
  if double then (if 2 * d >? 9 then 2 * d - 9 else 2 * d) else d.

(** What makes the length of a payload odd: nothing, or one more 0. *)
Definition odd_pad (base : string) : string :=
  if Nat.odd (String.length base) then "" else "0".

(** An identifier as lines 251 to 271 build it: one of the three prefixes,
    twelve digits, and the check digit of lines 261 to 270 for these 14. *)
Definition imei_form (x : string) : Prop :=
  ∃ tac serial cd,
    x = (tac +:+ serial) +:+ str_of_Z cd ∧ tac ∈ tac_db
    ∧ String.length serial = 12%nat ∧ all_digits serial = true
    ∧ check_digit (tac +:+ serial) = Ok cd ∧ 0 ≤ cd ≤ 9.

(** The keys of [report_data], lines 145 to 152. *)
Definition report_keys : list string :=
  ["device_info"; "permissions"; "sim_info"; "wifi_info"; "cell_info"; "timestamp"].

(** The arithmetic candidate for the integers [t], [p] and [c] of line 233. *)
Definition math_candidate (m n : string) (t p c : Z) : string :=
  (m +:+ n) +:+ zfill 10 (str_of_Z ((t * p * c) `mod` 1000000000)).

(** Texts that a group captures: one or more characters of a line ([.]
    matches no line feed), of a word, or decimal digits. *)
Definition line_text (g : string) : Prop :=
  g ≠ "" ∧ Forall (λ c, is_dot c = true) (chars g).

Definition word_text (g : string) : Prop :=
  g ≠ "" ∧ Forall (λ c, is_word c = true) (chars g).

Definition digit_text (g : string) : Prop :=
  g ≠ "" ∧ all_digits g = true.

(** The network that lines 193 to 198 make of a match. *)
Definition wifi_entry (m : list string) (n : wifi_network) : Prop :=
  ssid n = group m 1 ∧ int_of_str (group m 2) = Ok (rssi n)
  ∧ int_of_str (group m 3) = Ok (channel n).

(** The groups of [wifi_re]: a name, a signed number and digits. *)
Definition wifi_fields (m : list string) : Prop :=
  ∃ a b c, m = [a; b; c] ∧ a ≠ "" ∧ signed_digits (chars b) ∧ digit_text c.

(** ** [Device] and [DeviceManager] *)

(** The registry never looks into the values of device data nor into the
    times it stores: [V] is the type of the values, [time] the type of what
    [datetime.now()] gives. Writing the registry to its file and logging
    are left out. *)

(** A point of [location_history]: its keys are "timestamp" and
    "location". *)
Record history_point (V : Type) := {
  point_timestamp : string;
  point_location : V
}.
Arguments point_timestamp {V} _.
Arguments point_location {V} _.

(** [dev_id] is [self.id]. *)
Record Device (V time : Type) := {
  dev_id : string;
  device_type : string;
  data : gmap string V;
  first_seen : time;
  last_seen : time;
  times_seen : Z;
  location_history : list (history_point V)
}.
Arguments dev_id {V time} _.
Arguments device_type {V time} _.
Arguments data {V time} _.
Arguments first_seen {V time} _.
Arguments last_seen {V time} _.
Arguments times_seen {V time} _.
Arguments location_history {V time} _.

(** [Device.__init__]: [new_id] is the identifier drawn, [t1] and [t2] the
    two readings of the clock; [data or {}] is [data]. *)
Definition Device_init {V time} (new_id : string) (t1 t2 : time)
    (device_type : string) (data : option (gmap string V)) : Device V time :=
  {| dev_id := new_id; device_type := device_type; data := default ∅ data;
     first_seen := t1; last_seen := t2; times_seen := 1;
     location_history := [] |}.

(** [Device.update]: the loop assigns every entry of [new_data]. *)
Definition Device_update {V time} (self : Device V time)
    (new_data : gmap string V) (now : time) : Device V time :=
  {| dev_id := dev_id self; device_type := device_type self;
     data := map_fold (λ key value acc, <[key := value]> acc) (data self) new_data;
     first_seen := first_seen self; last_seen := now;
     times_seen := times_seen self + 1;
     location_history := location_history self |}.

(** [Device.add_location]; [stamp] is [timestamp.isoformat()]. *)
Definition Device_add_location {V time} (self : Device V time)
    (location : V) (stamp : string) : Device V time :=
  {| dev_id := dev_id self; device_type := device_type self;
     data := <["last_location" := location]> (data self);
     first_seen := first_seen self; last_seen := last_seen self;
     times_seen := times_seen self;
     location_history := location_history self ++
       [{| point_timestamp := stamp; point_location := location |}] |}.

(** [Device.calculate_imsis] and [Device.calculate_imeis] *)
Definition Device_calculate_imsis {time} (list_of_set : list string → list string)
    (self : Device pyval time) (count : Z) (g : rng) : result (list string * rng) :=
  calculate_possible_imsis list_of_set (data self) (Z.min count MAX_CALCULATIONS) g.

Definition Device_calculate_imeis {time} (self : Device pyval time) (count : Z)
    (g : rng) : result (list string * rng) :=
  calculate_possible_imeis (Z.min count MAX_CALCULATIONS) g.

(** An [OrderedDict] with string keys: the entries in the order in which
    their keys came in. *)
Fixpoint od_get {A} (key : string) (od : list (string * A)) : option A :=
  match od with
  | [] => None
  | (k, v) :: od' => if decide (k = key) then Some v else od_get key od'
  end.

(** [od[key] = v]: in place for a key that is there, at the end for a new
    one. *)
Fixpoint od_set {A} (key : string) (v : A) (od : list (string * A))
    : list (string * A) :=
  match od with
  | [] => [(key, v)]
  | (k, x) :: od' =>
      if decide (k = key) then (k, v) :: od' else (k, x) :: od_set key v od'
  end.

(** [DeviceManager.add_device] on [self.devices] *)
Definition add_device {V time} (devices : list (string * Device V time))
    (device : Device V time) (now : time) : list (string * Device V time) :=
  match od_get (dev_id device) devices with
  | Some existing =>
      od_set (dev_id device) (Device_update existing (data device) now) devices
  | None => od_set (dev_id device) device devices
  end.

(** [DeviceManager.get_device] *)
Definition get_device {V time} (devices : list (string * Device V time))
    (device_id : string) : option (Device V time) :=
  od_get device_id devices.

(** ** The settings of the console *)

Definition GPS_MODES : list string := ["gps"; "network"; "fused"; "passive"].

(** [handle_verbose_command]: the level it leaves in [self.verbose_level]. *)
Definition handle_verbose_command (args : list string) (verbose_level : Z) : Z :=
  match args with
  | [] => verbose_level
  | a :: _ =>
      match int_of_str a with
      | Ok level =>
          if (0 <=? level) && (level <=? 3) then level else verbose_level
      | Raise _ => verbose_level
      end
  end.

(** [handle_gps_command]: the mode it leaves in [self.location_provider]. *)
Definition handle_gps_command (args : list string) (location_provider : string)
    : string :=
  match args with
  | [] => location_provider
  | a :: _ => if bool_decide (a ∈ GPS_MODES) then a else location_provider
  end.

(** [l[n:]] on a list: a negative bound counts from the end. *)
Definition slice_from {A} (l : list A) (n : Z) : list A :=
  if n <? 0 then drop (length l - Z.to_nat (- n))%nat l
  else drop (Z.to_nat n) l.

(** The points that [display_device_details] lists, lines 733 to 735. *)
Definition shown_history {A} (verbose_level : Z) (location_history : list A)
    : list A :=
  let detail_level := Z.min verbose_level 3 in
  slice_from location_history (- detail_level * 3).

(** Each device is stored under its own identifier, and once. *)
Definition well_keyed {V time} (devices : list (string * Device V time)) : Prop :=
  NoDup devices.*1 ∧ Forall (λ kd, kd.1 = dev_id kd.2) devices.

(** * Properties *)

(** ** The runtime on known values *)

Example int_vectors :
  int_of_str "0000" = Ok 0 ∧ int_of_str " -12 " = Ok (-12)
  ∧ int_of_str "1_000" = Ok 1000 ∧ int_of_str "1__0" = Raise ValueError
  ∧ int_of_str "abc" = Raise ValueError ∧ int_of_str "" = Raise ValueError.
Proof. repeat split; by vm_compute. Qed.

Example int_limit_vectors :
  returns (int_of_str (str_of (replicate 4300 "9"%char)))
  ∧ int_of_str (str_of (replicate 4301 "0"%char)) = Raise ValueError
  ∧ returns (int_of_str (str_of ("-"%char :: replicate 4300 "1"%char)))
  ∧ int_of_str (str_of (replicate 4301 "1"%char)) = Raise ValueError.
Proof.
  split; [apply (bool_decide_unpack _); by vm_compute|].
  split; [by vm_compute|].
  split; [apply (bool_decide_unpack _); by vm_compute|by vm_compute].
Qed.

Example value_vectors :
  py_int PNone = Raise TypeError ∧ py_int (PBool true) = Ok 1
  ∧ py_int (PStr "None") = Raise ValueError
  ∧ py_str PNone = Ok "None" ∧ py_str (PBool false) = Ok "False"
  ∧ py_str (PInt (-12)) = Ok "-12"
  ∧ py_add (PBool true) (PBool true) = Ok (PInt 2)
  ∧ py_add (PStr "a") (PStr "b") = Ok (PStr "ab")
  ∧ py_add (PStr "a") (PInt 1) = Raise TypeError
  ∧ py_add PNone PNone = Raise TypeError
  ∧ py_add_str (PInt 2) "a" = Raise TypeError.
Proof. repeat split; by vm_compute. Qed.

Example str_vectors :
  str_of_Z 0 = "0" ∧ str_of_Z (-470) = "-470"
  ∧ str_of_Z 1000000000 = "1000000000"
  ∧ zfill 10 "42" = "0000000042" ∧ zfill 5 "-42" = "-0042"
  ∧ lower "TrUe" = "true"
  ∧ slice_to [1; 2; 3] 2 = [1; 2] ∧ slice_to [1; 2; 3] (-1) = [1; 2]
  ∧ slice_to [1; 2; 3] 7 = [1; 2; 3].
Proof. repeat split; by vm_compute. Qed.

Example sha256_vectors :
  SHA256.hexdigest (encode "abc")
    = "ba7816bf8f01cfea414140de5dae2223b00361a396177a9cb410ff61f20015ad"
  ∧ SHA256.hexdigest (encode "")
    = "e3b0c44298fc1c149afbf4c8996fb92427ae41e4649b934ca495991b7852b855"
  ∧ SHA256.hexdigest (encode "3102600000000")
    = "4a51cea69376b1e551c9ab7560b0c2c7e5f9ad31b13d75254ffcf2117383401f".
Proof. repeat split; by vm_compute. Qed.

Example re_vectors :
  re_search device_re (chars "Device: Pixel 7 - panther")
    = Some ["Pixel 7"; "panther"]
  ∧ re_search android_re (chars "Android: 14 (UPB1)") = Some ["14"]
  ∧ re_search sim_re (chars "SIM(tm): Carrier, 310260,")
    = Some ["Carrier"; "310260"]
  ∧ re_findall lte_re (chars "MCC: 310 mnc :260 x: y tac: -5")
    = [["MCC"; "310"]; ["mnc"; "260"]; ["tac"; "-5"]].
Proof. repeat split; by vm_compute. Qed.

(** ** Strings and lists of characters *)

Lemma chars_str_of l : chars (str_of l) = l.
Proof. apply list_ascii_of_string_of_list_ascii. Qed.

Lemma str_of_chars s : str_of (chars s) = s.
Proof. apply string_of_list_ascii_of_string. Qed.

Lemma chars_app s t : chars (s +:+ t) = chars s ++ chars t.
Proof. induction s as [|c s IH]; simpl; [done|]. by rewrite <- IH. Qed.

Lemma str_length s : String.length s = length (chars s).
Proof. induction s as [|c s IH]; simpl; [done|]. by rewrite IH. Qed.

Lemma str_of_app l1 l2 : str_of (l1 ++ l2) = str_of l1 +:+ str_of l2.
Proof.
  rewrite <- (str_of_chars (str_of l1 +:+ str_of l2)).
  by rewrite chars_app, !chars_str_of.
Qed.

Lemma chars_inj s t : chars s = chars t → s = t.
Proof. intros H. by rewrite <- (str_of_chars s), H, str_of_chars. Qed.

(** ** Decimal literals *)

Lemma int_digits_dec ds acc b :
  Forall (λ c, is_digit c = true) ds → ds ≠ [] ∨ b = true →
  int_digits ds acc b = Some (dec_value ds acc).
Proof.
  intros Hds. revert acc b.
  induction Hds as [|c ds Hc _ IH]; intros acc b Hne; simpl.
  - destruct Hne as [?| ->]; done.
  - rewrite Hc. apply IH. by right.
Qed.

Lemma is_digit_code c : is_digit c = true ↔ (48 ≤ code c ≤ 57)%N.
Proof.
  unfold is_digit, in_range. rewrite andb_true_iff, !N.leb_le. done.
Qed.

Lemma is_char_code a c : is_char a c = true ↔ code a = code c.
Proof. unfold is_char. apply N.eqb_eq. Qed.

Lemma is_char_digit a c :
  is_digit c = true → (code a < 48)%N → is_char a c = false.
Proof.
  intros Hc%is_digit_code Ha. apply not_true_iff_false.
  rewrite is_char_code. lia.
Qed.

Lemma is_digit_not_space c : is_digit c = true → is_int_space c = false.
Proof.
  intros H%is_digit_code. unfold is_int_space, in_range.
  repeat (apply orb_false_iff; split);
    try apply andb_false_iff; try (right; apply N.leb_gt; lia);
    apply N.eqb_neq; lia.
Qed.

Lemma lstrip_head p c l : p c = false → lstrip p (c :: l) = c :: l.
Proof. intros H. simpl. by rewrite H. Qed.

Lemma strip_ends p c l d :
  p c = false → p d = false → strip p (c :: l ++ [d]) = c :: l ++ [d].
Proof.
  intros Hc Hd. unfold strip. rewrite (lstrip_head _ _ _ Hc).
  rewrite reverse_cons, reverse_app, reverse_singleton. simpl.
  rewrite Hd, reverse_cons, reverse_app, reverse_involutive. done.
Qed.

Lemma strip_single p c : p c = false → strip p [c] = [c].
Proof. intros H. unfold strip. simpl. rewrite H. simpl. by rewrite H. Qed.

Lemma strip_digits_after c ds :
  is_int_space c = false → Forall (λ c, is_digit c = true) ds →
  strip is_int_space (c :: ds) = c :: ds.
Proof.
  intros Hc Hds. destruct (decide (ds = [])) as [->|Hne].
  - by apply strip_single.
  - destruct (exists_last Hne) as (ds' & d & ->).
    apply strip_ends; [done|]. apply is_digit_not_space.
    apply Forall_app in Hds as [_ Hd]. by inversion Hd.
Qed.

Lemma int_literal_digits ds :
  ds ≠ [] → Forall (λ c, is_digit c = true) ds →
  int_literal ds = Some (dec_value ds 0).
Proof.
  intros Hne Hds. destruct ds as [|d ds]; [done|]. unfold int_literal.
  inversion Hds as [|?? Hd Hds']; subst.
  rewrite strip_digits_after; [|by apply is_digit_not_space|done].
  rewrite !(is_char_digit _ d) by (done || by vm_compute).
  apply int_digits_dec; [done|by left].
Qed.

Lemma int_literal_minus ds :
  ds ≠ [] → Forall (λ c, is_digit c = true) ds →
  int_literal ("-"%char :: ds) = Some (- dec_value ds 0).
Proof.
  intros Hne Hds. unfold int_literal.
  rewrite strip_digits_after; [|done|done].
  change (is_char "-" "-") with true. cbv iota.
  rewrite (int_digits_dec ds); [done|done|by left].
Qed.

Lemma int_literal_signed l : signed_digits l → is_Some (int_literal l).
Proof.
  intros (sign & ds & -> & [-> | ->] & Hne & Hds); simpl app.
  - rewrite int_literal_digits; eauto.
  - rewrite int_literal_minus; eauto.
Qed.

(** ** The limit on the digits *)

Lemma int_of_str_Ok s z :
  int_of_str s = Ok z ↔
    int_literal (chars s) = Some z ∧ count_digits (chars s) ≤ int_max_str_digits.
Proof.
  unfold int_of_str, sized. destruct (int_literal (chars s)) as [z'|].
  - destruct (Z.leb_spec (count_digits (chars s)) int_max_str_digits).
    + split; [intros [= ->]; by split|]. by intros [[= ->] _].
    + split; [done|]. intros [_ ?]. lia.
  - split; [done|]. by intros [? _].
Qed.

Lemma int_of_str_exn s e : int_of_str s = Raise e → e = ValueError.
Proof.
  unfold int_of_str. destruct (int_literal _); [|congruence].
  destruct (sized s); congruence.
Qed.

Lemma sized_spec g : sized g = true ↔ count_digits (chars g) ≤ int_max_str_digits.
Proof. unfold sized. apply Z.leb_le. Qed.

Lemma int_of_str_unsized s : sized s = false → int_of_str s = Raise ValueError.
Proof.
  intros H. destruct (int_of_str s) as [z|e] eqn:Hs.
  - apply int_of_str_Ok in Hs as [_ Hs%sized_spec]. congruence.
  - by rewrite (int_of_str_exn _ _ Hs).
Qed.

Lemma int_of_str_signed s :
  signed_digits (chars s) → sized s = true → returns (int_of_str s).
Proof.
  intros H Hs. apply int_literal_signed in H as [z Hz].
  exists z. apply int_of_str_Ok. split; [done|]. by apply sized_spec.
Qed.

Lemma count_digits_nonneg l : 0 ≤ count_digits l.
Proof. induction l as [|c l IH]; simpl; [done|]. destruct (is_digit c); lia. Qed.

Lemma count_digits_app l1 l2 :
  count_digits (l1 ++ l2) = count_digits l1 + count_digits l2.
Proof. induction l1 as [|c l1 IH]; simpl; [done|]. rewrite IH. lia. Qed.

Lemma count_digits_length l :
  Forall (λ c, is_digit c = true) l → count_digits l = Z.of_nat (length l).
Proof.
  induction 1 as [|c l Hc _ IH]; [done|].
  cbn [count_digits length]. rewrite Hc, IH. lia.
Qed.

Lemma count_digits_le l : count_digits l ≤ Z.of_nat (length l).
Proof.
  induction l as [|c l IH]; [done|].
  cbn [count_digits length]. destruct (is_digit c); lia.
Qed.

Lemma count_digits_reverse l : count_digits (reverse l) = count_digits l.
Proof.
  induction l as [|c l IH]; [done|].
  rewrite reverse_cons, count_digits_app, IH. simpl. lia.
Qed.

Lemma count_digits_lstrip p l : count_digits (lstrip p l) ≤ count_digits l.
Proof.
  induction l as [|c l IH]; simpl; [done|].
  destruct (p c); simpl; [|lia]. destruct (is_digit c); lia.
Qed.

Lemma count_digits_strip p l : count_digits (strip p l) ≤ count_digits l.
Proof.
  unfold strip. rewrite count_digits_reverse.
  etrans; [apply count_digits_lstrip|].
  rewrite count_digits_reverse. apply count_digits_lstrip.
Qed.

(** The number that [n] digits spell is below [10 ^ n]. *)
Lemma int_digits_bound l acc b z :
  int_digits l acc b = Some z → 0 ≤ acc →
  0 ≤ z < (acc + 1) * 10 ^ count_digits l.
Proof.
  revert acc b. induction l as [|c l IH]; intros acc b; cbn [int_digits count_digits].
  - destruct b; [|done]. intros [= <-] ?. simpl. lia.
  - destruct (is_digit c) eqn:Hc.
    + intros H Hacc. apply is_digit_code in Hc as Hcode.
      apply IH in H; [|unfold digit_val; lia].
      pose proof (count_digits_nonneg l).
      rewrite Z.pow_add_r, Z.pow_1_r by lia.
      assert (0 < 10 ^ count_digits l) by (apply Z.pow_pos_nonneg; lia).
      unfold digit_val in H. nia.
    + destruct (is_char "_" c); [|done]. destruct b; [|done].
      rewrite Z.add_0_l. apply IH.
Qed.

(** An integer that [int] read is below [10 ^ 4300]. *)
Lemma int_of_str_bound s z :
  int_of_str s = Ok z → Z.abs z < 10 ^ int_max_str_digits.
Proof.
  intros [Hlit Hsize]%int_of_str_Ok.
  pose proof (count_digits_strip is_int_space (chars s)) as Hstrip.
  unfold int_literal in Hlit.
  destruct (strip is_int_space (chars s)) as [|c l]; [done|].
  cbn [count_digits] in Hstrip.
  assert (∀ l' y, int_digits l' 0 false = Some y → count_digits l' ≤ int_max_str_digits →
    0 ≤ y < 10 ^ int_max_str_digits) as Hb.
  { intros l' y Hy Hl'. apply int_digits_bound in Hy; [|done].
    pose proof (count_digits_nonneg l').
    assert (10 ^ count_digits l' ≤ 10 ^ int_max_str_digits)
      by (apply Z.pow_le_mono_r; lia).
    lia. }
  assert (count_digits l ≤ int_max_str_digits) as Hl
    by (destruct (is_digit c); lia).
  destruct (is_char "-" c).
  { destruct (int_digits l 0 false) as [y|] eqn:Hy; [|done].
    injection Hlit as <-. pose proof (Hb l y Hy Hl). lia. }
  destruct (is_char "+" c).
  { pose proof (Hb l z Hlit Hl). lia. }
  assert (0 ≤ z < 10 ^ int_max_str_digits); [|lia].
  apply (Hb (c :: l) z Hlit). cbn [count_digits]. lia.
Qed.

(** ** Printing integers *)

Lemma digit_char_code n : (n < 10)%N → code (digit_char n) = (48 + n)%N.
Proof.
  intros H. unfold code, digit_char. apply N_ascii_embedding. lia.
Qed.

Lemma digit_char_digit n : (n < 10)%N → is_digit (digit_char n) = true.
Proof. intros H. apply is_digit_code. rewrite digit_char_code; lia. Qed.

Lemma digit_char_val n : (n < 10)%N → digit_val (digit_char n) = Z.of_N n.
Proof. intros H. unfold digit_val. rewrite digit_char_code; lia. Qed.

Lemma dec_value_snoc ds d acc :
  dec_value (ds ++ [d]) acc = 10 * dec_value ds acc + digit_val d.
Proof. unfold dec_value. by rewrite foldl_app. Qed.

Lemma digits_of_N_S fuel n acc :
  digits_of_N (S fuel) n acc =
    if (n / 10 =? 0)%N then digit_char (n mod 10) :: acc
    else digits_of_N fuel (n / 10) (digit_char (n mod 10) :: acc).
Proof. done. Qed.

(** [digits_of_N] prints [n] in front of [acc]: the digits read back as
    [n], and there are no more of them than [n] needs. *)
Lemma digits_of_N_spec fuel n acc :
  (n < 2 ^ N.of_nat fuel)%N →
  ∃ ds, digits_of_N (S fuel) n acc = ds ++ acc ∧ ds ≠ []
    ∧ Forall (λ c, is_digit c = true) ds
    ∧ dec_value ds 0 = Z.of_N n
    ∧ (length ds = 1%nat ∨ (10 ^ N.of_nat (length ds - 1) ≤ n)%N).
Proof.
  revert n acc. induction fuel as [|fuel IH]; intros n acc Hn.
  - assert (n = 0%N) as -> by (simpl in Hn; lia).
    exists [digit_char 0]. repeat split; try done; eauto.
  - assert (n mod 10 < 10)%N as Hd by (apply N.mod_lt; lia).
    rewrite digits_of_N_S. destruct (N.eqb_spec (n / 10) 0) as [Hq|Hq].
    + exists [digit_char (n mod 10)]. repeat split; try done; eauto.
      * constructor; [|done]. by apply digit_char_digit.
      * unfold dec_value. simpl. rewrite digit_char_val by done.
        pose proof (N.div_mod n 10). lia.
    + destruct (IH (n / 10)%N (digit_char (n mod 10) :: acc))
        as (ds & Heq & Hne & Hds & Hval & Hlen).
      { apply N.Div0.div_lt_upper_bound.
        rewrite Nat2N.inj_succ, N.pow_succ_r' in Hn. lia. }
      exists (ds ++ [digit_char (n mod 10)]).
      rewrite Heq, <- app_assoc. repeat split; try done.
      * by destruct ds.
      * apply Forall_app. split; [done|].
        constructor; [|done]. by apply digit_char_digit.
      * rewrite dec_value_snoc, Hval, digit_char_val by done.
        pose proof (N.div_mod n 10). lia.
      * right. rewrite length_app. simpl.
        replace (length ds + 1 - 1)%nat with (S (length ds - 1))
          by (destruct ds; [done|simpl; lia]).
        rewrite Nat2N.inj_succ, N.pow_succ_r'.
        destruct Hlen as [Hl|Hl].
        -- rewrite Hl. change (N.of_nat (1 - 1)) with 0%N.
           rewrite N.pow_0_r. destruct (N.lt_ge_cases n 10) as [Hlt|Hge]; [|lia].
           by rewrite N.div_small in Hq.
        -- etrans; [apply N.mul_le_mono_l, Hl|apply N.Div0.mul_div_le].
Qed.

Lemma size_nat_bound n : (n < 2 ^ N.of_nat (N.size_nat n))%N.
Proof.
  destruct n as [|p]; [done|]. cbn [N.size_nat].
  induction p as [p IH|p IH|]; cbn [Pos.size_nat];
    rewrite ?Nat2N.inj_succ, ?N.pow_succ_r'; [| |done].
  - revert IH. generalize (2 ^ N.of_nat (Pos.size_nat p))%N. lia.
  - revert IH. generalize (2 ^ N.of_nat (Pos.size_nat p))%N. lia.
Qed.

(** The digits of a number that is not negative. *)
Lemma str_of_Z_digits z :
  0 ≤ z →
  ∃ ds, chars (str_of_Z z) = ds ∧ ds ≠ []
    ∧ Forall (λ c, is_digit c = true) ds
    ∧ dec_value ds 0 = z
    ∧ (length ds = 1%nat ∨ 10 ^ Z.of_nat (length ds - 1) ≤ z).
Proof.
  intros Hz. unfold str_of_Z.
  destruct (digits_of_N_spec (N.size_nat (Z.abs_N z)) (Z.abs_N z) [])
    as (ds & Heq & Hne & Hds & Hval & Hlen); [apply size_nat_bound|].
  rewrite app_nil_r in Heq. exists ds.
  assert ((z <? 0) = false) as -> by lia.
  rewrite Heq, chars_str_of. repeat split; try done.
  - rewrite Hval. lia.
  - destruct Hlen as [?|Hl]; [by left|right].
    apply N2Z.inj_le in Hl. rewrite N2Z.inj_pow in Hl.
    rewrite N2Z.inj_abs_N, nat_N_Z in Hl. simpl in Hl. lia.
Qed.

Lemma str_of_Z_neg z : z < 0 → chars (str_of_Z z) = "-"%char :: chars (str_of_Z (- z)).
Proof.
  intros Hz. unfold str_of_Z.
  assert ((z <? 0) = true) as -> by lia.
  assert ((- z <? 0) = false) as -> by lia.
  replace (Z.abs_N (- z)) with (Z.abs_N z) by lia.
  by rewrite !chars_str_of.
Qed.

(** [str] prints the integers below [10 ^ 4300]. *)
Lemma int_shown_pow z :
  int_shown z = true ↔ Z.abs z < 10 ^ int_max_str_digits.
Proof.
  unfold int_shown. rewrite sized_spec.
  assert (∀ y, 0 ≤ y →
    count_digits (chars (str_of_Z y)) ≤ int_max_str_digits ↔ y < 10 ^ int_max_str_digits)
    as Hpos.
  { intros y Hy.
    destruct (str_of_Z_digits y Hy) as (ds & -> & Hne & Hds & Hval & Hlen).
    rewrite (count_digits_length ds Hds).
    pose proof (int_digits_dec ds 0 true Hds (or_intror eq_refl)) as Hb.
    apply int_digits_bound in Hb; [|done].
    rewrite (count_digits_length ds Hds), Hval in Hb. split.
    - intros Hle.
      assert (10 ^ Z.of_nat (length ds) ≤ 10 ^ int_max_str_digits)
        by (apply Z.pow_le_mono_r; lia).
      lia.
    - intros Hlt. destruct (Z_le_gt_dec (Z.of_nat (length ds)) int_max_str_digits)
        as [|Hgt]; [done|exfalso].
      destruct Hlen as [Hl|Hl]; [unfold int_max_str_digits in Hgt; lia|].
      assert (10 ^ int_max_str_digits ≤ 10 ^ Z.of_nat (length ds - 1)); [|lia].
      apply Z.pow_le_mono_r; lia. }
  destruct (Z_lt_le_dec z 0) as [Hneg|Hge].
  - rewrite str_of_Z_neg by done. cbn [count_digits].
    change (is_digit "-") with false. rewrite Z.add_0_l, Hpos by lia. lia.
  - rewrite Hpos by done. lia.
Qed.

(** An integer that [int] read is one that [str] prints. *)
Lemma int_of_str_shown s z : int_of_str s = Ok z → int_shown z = true.
Proof. intros H%int_of_str_bound. by apply int_shown_pow. Qed.

(** [int(str(z))] is [z]. *)
Lemma int_of_str_of_Z z : int_shown z = true → int_of_str (str_of_Z z) = Ok z.
Proof.
  intros Hz. apply int_of_str_Ok. split; [|by apply sized_spec].
  destruct (Z_lt_le_dec z 0) as [Hneg|Hpos].
  - rewrite str_of_Z_neg by done.
    destruct (str_of_Z_digits (- z)) as (ds & -> & Hne & Hds & Hval & _); [lia|].
    rewrite int_literal_minus, Hval by done. f_equal. lia.
  - destruct (str_of_Z_digits z Hpos) as (ds & Heq & Hne & Hds & Hval & _).
    rewrite Heq, int_literal_digits, Hval by done. done.
Qed.

Lemma int_of_str_not_shown z :
  int_shown z = false → int_of_str (str_of_Z z) = Raise ValueError.
Proof. intros Hz. by apply int_of_str_unsized. Qed.

(** ** What a match consumed *)

Section backtracking_facts.
Context {R : Type} (p : ascii → bool) (k : list ascii → option R).

Lemma one_inv s r :
  one p k s = Some r → ∃ c s', s = c :: s' ∧ p c = true ∧ k s' = Some r.
Proof.
  destruct s as [|c s']; simpl; [done|].
  destruct (p c) eqn:Hc; [|done]. eauto.
Qed.

Lemma opt_inv s r :
  opt p k s = Some r →
  ∃ l s', s = l ++ s' ∧ (l = [] ∨ ∃ c, l = [c] ∧ p c = true) ∧ k s' = Some r.
Proof.
  unfold opt. destruct (one p k s) as [r'|] eqn:Hone.
  - intros [= ->]. apply one_inv in Hone as (c & s' & -> & Hc & Hk).
    exists [c], s'. split; [done|]. split; [right; eauto|done].
  - intros Hk. exists [], s. split; [done|]. split; [by left|done].
Qed.

Lemma greedy_inv s r :
  greedy p k s = Some r →
  ∃ l s', s = l ++ s' ∧ Forall (λ c, p c = true) l ∧ k s' = Some r.
Proof.
  induction s as [|c s IH]; simpl.
  - intros Hk. by exists [], [].
  - destruct (p c) eqn:Hc; [|intros Hk; by exists [], (c :: s)].
    destruct (greedy p k s) as [r'|]; [|intros Hk; by exists [], (c :: s)].
    intros [= ->]. destruct IH as (l & s' & -> & Hl & Hk); [done|].
    exists (c :: l), s'. split; [done|]. split; [by constructor|done].
Qed.

Lemma lazy_inv s r :
  lazy p k s = Some r →
  ∃ l s', s = l ++ s' ∧ Forall (λ c, p c = true) l ∧ k s' = Some r.
Proof.
  induction s as [|c s IH]; simpl.
  - destruct (k []) eqn:Hk; [|done]. intros [= ->]. by exists [], [].
  - destruct (k (c :: s)) eqn:Hk.
    { intros [= ->]. by exists [], (c :: s). }
    destruct (p c) eqn:Hc; [|done].
    intros (l & s' & -> & Hl & Hk')%IH. exists (c :: l), s'.
    split; [done|]. split; [by constructor|done].
Qed.
End backtracking_facts.

Lemma take_consumed {A} (l s : list A) :
  take (length (l ++ s) - length s) (l ++ s) = l.
Proof.
  rewrite length_app. replace (length l + length s - length s)%nat
    with (length l) by lia.
  by rewrite take_app_length.
Qed.

Lemma run_cls p q re s start caps r :
  run (Cls p q :: re) s start caps = Some r →
  ∃ s', run re s' start caps = Some r.
Proof.
  destruct q; cbn [run]; intros H.
  - apply one_inv in H as (? & ? & _ & _ & H). eauto.
  - apply opt_inv in H as (? & ? & _ & _ & H). eauto.
  - apply greedy_inv in H as (? & ? & _ & _ & H). eauto.
  - apply one_inv in H as (? & ? & _ & _ & H).
    apply greedy_inv in H as (? & ? & _ & _ & H). eauto.
  - apply one_inv in H as (? & ? & _ & _ & H).
    apply lazy_inv in H as (? & ? & _ & _ & H). eauto.
Qed.

Lemma run_group p q re s start caps r :
  run (Open :: Cls p q :: Close :: re) s start caps = Some r →
  ∃ g s' start', run re s' start' (caps ++ [g]) = Some r.
Proof.
  cbn [run]. fold (run (Close :: re)).
  change (run (Cls p q :: Close :: re) s s caps = Some r → ∃ g s' start',
    run re s' start' (caps ++ [g]) = Some r).
  intros (s' & H)%run_cls. cbn [run] in H. eauto.
Qed.

(** The group [(-?\d+)] captures a literal of [int]. *)
Lemma run_signed_group re s start caps r :
  run (Open :: Cls (is_char "-") Opt :: Cls is_digit Plus :: Close :: re)
    s start caps = Some r →
  ∃ g s' start', signed_digits (chars g) ∧ run re s' start' (caps ++ [g]) = Some r.
Proof.
  cbn [run]. intros (sign & s1 & -> & Hsign & H)%opt_inv.
  apply one_inv in H as (d & s2 & -> & Hd & H).
  apply greedy_inv in H as (ds & s3 & -> & Hds & H).
  eexists _, _, _. split; [|exact H].
  rewrite chars_str_of.
  replace (sign ++ d :: ds ++ s3) with ((sign ++ d :: ds) ++ s3)
    by by rewrite <- app_assoc.
  rewrite take_consumed. exists sign, (d :: ds). repeat split; try done.
  - destruct Hsign as [->|(c & -> & Hc)]; [by left|right].
    apply is_char_code in Hc. unfold code in Hc.
    f_equal. symmetry. rewrite <- (ascii_N_embedding c), <- Hc. done.
  - by constructor.
Qed.

(** The group [(\d+)] captures digits. *)
Lemma run_digits_group re s start caps r :
  run (Open :: Cls is_digit Plus :: Close :: re) s start caps = Some r →
  ∃ g s' start', signed_digits (chars g) ∧ run re s' start' (caps ++ [g]) = Some r.
Proof.
  cbn [run]. intros (d & s2 & -> & Hd & H)%one_inv.
  apply greedy_inv in H as (ds & s3 & -> & Hds & H).
  eexists _, _, _. split; [|exact H].
  rewrite chars_str_of.
  match goal with |- context [take ?n ?l] =>
    replace (take n l) with (d :: ds)
      by (symmetry; apply (take_consumed (d :: ds) s3)) end.
  exists [], (d :: ds). repeat split; try done.
  - by left.
  - by constructor.
Qed.

Ltac skip_cls H := repeat (apply run_cls in H as (? & H)).

Lemma lte_re_groups s rest m :
  match_at lte_re s = Some (rest, m) → lte_groups m.
Proof.
  unfold match_at, lte_re. intros H.
  apply run_group in H as (w & ? & ? & H). skip_cls H.
  apply run_signed_group in H as (g & ? & ? & Hg & H).
  injection H as _ <-. by exists w, g.
Qed.

Lemma wifi_re_groups s rest m :
  match_at wifi_re s = Some (rest, m) → wifi_groups m.
Proof.
  unfold match_at. intros H.
  let re := eval cbv [wifi_re lit chars list_ascii_of_string
    fmap list_fmap app] in wifi_re in change wifi_re with re in H.
  skip_cls H. apply run_group in H as (a & ? & ? & H). skip_cls H.
  apply run_signed_group in H as (b & ? & ? & Hb & H). skip_cls H.
  apply run_digits_group in H as (c & ? & ? & Hc & H).
  injection H as _ <-. by exists a, b, c.
Qed.

Lemma re_findall_from_Forall (P : list string → Prop) re :
  (∀ s rest m, match_at re s = Some (rest, m) → P m) →
  ∀ s skip, Forall P (re_findall_from re s skip).
Proof.
  intros HP s. induction s as [|c s IH]; intros skip; simpl.
  - destruct skip; [|done].
    destruct (match_at re []) as [[rest m]|] eqn:Hm; [|done].
    constructor; [|done]. eauto.
  - destruct skip; [|done].
    destruct (match_at re (c :: s)) as [[rest m]|] eqn:Hm; [|done].
    constructor; [|done]. eauto.
Qed.

(** ** The parser returns *)

Lemma parse_wifi_returns sections nets :
  Forall wifi_groups sections → forallb wifi_sized sections = true →
  returns (parse_wifi sections nets).
Proof.
  intros H. revert nets.
  induction H as [|m sections (a & b & c & -> & Hb & Hc) _ IH];
    intros nets; cbn [parse_wifi forallb].
  - by eexists.
  - unfold wifi_sized. change (group [a; b; c] 2) with b.
    change (group [a; b; c] 3) with c.
    intros [[Hbs Hcs]%andb_true_iff Hrest]%andb_true_iff.
    apply int_of_str_signed in Hb as [r Hr]; [|done].
    apply int_of_str_signed in Hc as [ch Hch]; [|done].
    rewrite Hr. cbn [mbind result_bind]. rewrite Hch.  cbn [mbind result_bind].
    by apply IH.
Qed.

Lemma parse_wifi_raises sections nets :
  forallb wifi_sized sections = false →
  parse_wifi sections nets = Raise ValueError.
Proof.
  revert nets. induction sections as [|m sections IH]; intros nets;
    cbn [parse_wifi forallb]; [done|].
  intros H.
  destruct (int_of_str (group m 2)) as [r|e] eqn:Hr; cbn [mbind result_bind];
    [|by rewrite (int_of_str_exn _ _ Hr)].
  destruct (int_of_str (group m 3)) as [c|e] eqn:Hc; cbn [mbind result_bind];
    [|by rewrite (int_of_str_exn _ _ Hc)].
  apply IH. apply andb_false_iff in H as [H|H]; [exfalso|done].
  apply int_of_str_Ok in Hr as [_ Hr%sized_spec].
  apply int_of_str_Ok in Hc as [_ Hc%sized_spec].
  unfold wifi_sized in H. by rewrite Hr, Hc in H.
Qed.

Lemma parse_lte_raises ms cell :
  forallb lte_sized ms = false → parse_lte ms cell = Raise ValueError.
Proof.
  revert cell. induction ms as [|m ms IH]; intros cell;
    cbn [parse_lte forallb]; [done|].
  intros H. unfold lte_sized in H. case_bool_decide as Hin.
  - destruct (int_of_str (group m 2)) as [v|e] eqn:Hv; cbn [mbind result_bind];
      [|by rewrite (int_of_str_exn _ _ Hv)].
    apply IH. apply andb_false_iff in H as [H|H]; [exfalso|done].
    apply int_of_str_Ok in Hv as [_ Hv%sized_spec]. cbn [implb] in H. congruence.
  - apply IH. by apply andb_false_iff in H as [H|H].
Qed.

Lemma parse_lte_spec ms cell :
  Forall lte_groups ms → forallb lte_sized ms = true →
  ∃ cell', parse_lte ms cell = Ok cell' ∧ ∀ k, cell' !! k = lte_lookup k ms cell.
Proof.
  intros H. revert cell.
  induction H as [|m ms (w & g & -> & Hg) _ IH]; intros cell; cbn [parse_lte forallb].
  { intros _. exists cell. split; [done|]. intros k. unfold lte_lookup, lte_hits.
    by case_bool_decide. }
  unfold lte_sized.
  change (group [w; g] 1) with w. change (group [w; g] 2) with g.
  intros [Hsz Hrest]%andb_true_iff.
  destruct (decide (lower w ∈ lte_names)) as [Hw|Hw].
  - rewrite bool_decide_true in Hsz |- * by done. cbn [implb] in Hsz.
    destruct (int_of_str_signed g Hg Hsz) as [v Hv].
    rewrite Hv. cbn [mbind result_bind].
    destruct (IH (<[lower w:=PInt v]> cell) Hrest) as (cell' & -> & Hcell').
    clear Hrest. exists cell'. split; [done|]. intros k. rewrite Hcell'.
    unfold lte_lookup, lte_hits. rewrite filter_cons. cbn beta.
    change (group [w; g] 1) with w.
    case_bool_decide as Hk.
    + case_decide as Heq.
      * subst k. rewrite last_cons. destruct (last _); [done|].
        change (group [w; g] 2) with g. by rewrite Hv, lookup_insert_eq.
      * destruct (last _); [done|]. by rewrite lookup_insert_ne.
    + rewrite lookup_insert_ne; [done|]. by intros <-.
  - rewrite bool_decide_false by done.
    destruct (IH cell Hrest) as (cell' & -> & Hcell'). clear Hsz Hrest.
    exists cell'. split; [done|]. intros k. rewrite Hcell'.
    unfold lte_lookup, lte_hits. rewrite filter_cons. cbn beta.
    change (group [w; g] 1) with w.
    case_bool_decide as Hk; [|done].
    case_decide as Heq; [by subst k|done].
Qed.

Lemma parse_report_content_spec now content :
  literals_sized content = true →
  ∃ nets cell,
    parse_wifi (re_findall wifi_re (chars content)) [] = Ok nets
    ∧ parse_lte (re_findall lte_re (chars content)) (location_of (chars content))
        = Ok cell
    ∧ (∀ k, cell !! k =
        lte_lookup k (re_findall lte_re (chars content)) (location_of (chars content)))
    ∧ parse_report_content now content =
        Ok {| device_info := device_of (chars content);
              permissions := parse_permissions (zip perm_keys perm_patterns)
                               (chars content) ∅;
              sim_info := sim_of (chars content);
              wifi_info := {| networks := nets |};
              cell_info := cell;
              timestamp := now |}.
Proof.
  intros [Hws Hls]%andb_true_iff.
  destruct (parse_wifi_returns (re_findall wifi_re (chars content)) [])
    as [nets Hn]; [|done|].
  { apply re_findall_from_Forall, wifi_re_groups. }
  destruct (parse_lte_spec (re_findall lte_re (chars content))
    (location_of (chars content))) as (cell & Hc & Hk); [|done|].
  { apply re_findall_from_Forall, lte_re_groups. }
  exists nets, cell. repeat split; try done.
  unfold parse_report_content. rewrite Hn. cbn [mbind result_bind].
  fold (location_of (chars content)). rewrite Hc. done.
Qed.

(** The parser raises [ValueError] when a literal that it passes to [int]
    has more digits than the limit, and for no other text. *)
Lemma parse_report_content_raises now content :
  literals_sized content = false →
  parse_report_content now content = Raise ValueError.
Proof.
  intros H. unfold parse_report_content.
  destruct (forallb wifi_sized (re_findall wifi_re (chars content))) eqn:Hws.
  - destruct (parse_wifi _ _) as [nets|e] eqn:Hn; cbn [mbind result_bind].
    + rewrite parse_lte_raises; [done|].
      unfold literals_sized in H. by rewrite Hws in H.
    + pose proof (parse_wifi_returns (re_findall wifi_re (chars content)) [])
        as [nets Hnets]; [apply re_findall_from_Forall, wifi_re_groups|done|].
      congruence.
  - by rewrite parse_wifi_raises.
Qed.

(** ** Permissions *)

Lemma parse_permissions_other kps text perms key :
  key ∉ kps.*1 → parse_permissions kps text perms !! key = perms !! key.
Proof.
  revert perms. induction kps as [|[k pat] kps IH]; intros perms Hkey; [done|].
  rewrite fmap_cons in Hkey. apply not_elem_of_cons in Hkey as [Hne Hkey].
  cbn [parse_permissions]. rewrite IH by done.
  destruct (re_search pat text); [|done].
  by rewrite lookup_insert_ne.
Qed.

Lemma parse_permissions_in kps text perms key pattern :
  NoDup kps.*1 → (key, pattern) ∈ kps →
  parse_permissions kps text perms !! key =
    match perm_value pattern text with
    | Some b => Some b
    | None => perms !! key
    end.
Proof.
  revert perms. induction kps as [|[k pat] kps IH]; intros perms Hnd Hin.
  { by apply elem_of_nil in Hin. }
  apply NoDup_cons in Hnd as [Hk Hnd]. cbn [parse_permissions].
  apply elem_of_cons in Hin as [[= -> ->]|Hin].
  - rewrite parse_permissions_other by done. unfold perm_value.
    destruct (re_search pat text); simpl; [|done]. by rewrite lookup_insert_eq.
  - rewrite IH by done. destruct (perm_value pattern text); [done|].
    destruct (re_search pat text); [|done].
    rewrite lookup_insert_ne; [done|]. intros ->. apply Hk.
    apply list_elem_of_fmap. by exists (key, pattern).
Qed.

Lemma parse_permissions_none kps text perms :
  (∀ kp, kp ∈ kps → re_search kp.2 text = None) →
  parse_permissions kps text perms = perms.
Proof.
  revert perms. induction kps as [|[k pat] kps IH]; intros perms H; [done|].
  cbn [parse_permissions].
  assert (re_search pat text = None) as -> by (apply (H (k, pat)); left).
  apply IH. intros kp Hkp. apply H. by right.
Qed.

Lemma perm_table :
  zip perm_keys perm_patterns = [
    ("location_enabled", perm_re "Is Location Enabled");
    ("course_location", perm_re "Course Location access");
    ("fine_location", perm_re "Fine Location access");
    ("background_location", perm_re "Background Location access");
    ("phone_state", perm_re "Phone State access");
    ("write_access", perm_re "Write access");
    ("wifi_state", perm_re "WiFi State access") ].
Proof. reflexivity. Qed.

Lemma perm_keys_NoDup : NoDup (zip perm_keys perm_patterns).*1.
Proof. apply (bool_decide_unpack _). by vm_compute. Qed.

(** C3 (as amended): for each of the seven permission lines that the parser
    matches, the flag stored under its key is true exactly when the captured
    token, put in lower case, is "true", whatever the case it was written
    in; a line that is not matched stores nothing. This holds of the report
    of every text that the parser accepts, that is, every text in which no
    literal passed to [int] has more digits than the limit. *)
Theorem permission_token_lowercased now content key pattern :
  (key, pattern) ∈ zip perm_keys perm_patterns →
  literals_sized content = true →
  ∃ r, parse_report_content now content = Ok r
    ∧ permissions r !! key = perm_value pattern (chars content).
Proof.
  intros Hin Hsized.
  destruct (parse_report_content_spec now content Hsized)
    as (nw & cell & _ & _ & _ & ->).
  eexists. split; [done|]. cbn [permissions].
  rewrite (parse_permissions_in _ _ _ key pattern);
    [|apply perm_keys_NoDup|done].
  by destruct (perm_value _ _).
Qed.

Lemma permission_token_lowercased_witness :
  ∃ r, parse_report_content "t" "Is Location Enabled: TRUE" = Ok r
    ∧ permissions r !! "location_enabled" = Some true.
Proof.
  destruct (permission_token_lowercased "t" "Is Location Enabled: TRUE"
    "location_enabled" (perm_re "Is Location Enabled")) as (r & Hr & Hp).
  { rewrite perm_table. left. }
  { by vm_compute. }
  exists r. split; [done|]. rewrite Hp. by vm_compute.
Defined.

(** C3 (counterexample): the token "True" is not the lower-case literal
    "true", and the parser still stores true for it. *)
Lemma permission_token_True_is_true :
  "True" ≠ "true"
  ∧ re_search (perm_re "Is Location Enabled") (chars "Is Location Enabled: True")
      = Some ["True"]
  ∧ ∃ r, parse_report_content "t" "Is Location Enabled: True" = Ok r
      ∧ permissions r !! "location_enabled" = Some true.
Proof.
  split; [done|]. split; [by vm_compute|].
  eexists. split; [by vm_compute|]. by vm_compute.
Qed.

(** ** Empty and unrecognized input *)

Lemma lte_hits_nil k ms :
  k ∈ lte_names → (∀ m, m ∈ ms → lower (group m 1) ∉ lte_names) →
  lte_hits k ms = [].
Proof.
  intros Hk H. unfold lte_hits. induction ms as [|m ms IH]; [done|].
  rewrite filter_cons. case_decide as Hm.
  - exfalso. apply (H m); [left|]. by rewrite Hm.
  - apply IH. intros m' Hm'. apply H. by right.
Qed.

Lemma unrecognized_sized content : unrecognized content → literals_sized content = true.
Proof.
  intros (_ & _ & _ & _ & Hwifi & _ & Hlte). unfold literals_sized.
  rewrite Hwifi. cbn [forallb andb]. apply forallb_forall. intros m Hm.
  apply list_elem_of_In, Hlte in Hm. unfold lte_sized.
  by rewrite bool_decide_false.
Qed.

(** C6 (as amended): [parse_report_content] returns a report exactly for
    the texts in which every literal that it passes to [int] has no more
    digits than the limit of 4300, and raises [ValueError] for the others.
    For the empty text, and for every text in which no rule finds anything,
    the report has no device, permission, SIM or cell entry and carries the
    timestamp; its [wifi_info] is not empty: it holds the key "networks"
    with an empty list. *)
Theorem parse_total_and_empty now content :
  (returns (parse_report_content now content) ↔ literals_sized content = true)
  ∧ (literals_sized content = false →
       parse_report_content now content = Raise ValueError)
  ∧ (unrecognized content →
       parse_report_content now content = Ok (empty_report now))
  ∧ parse_report_content now "" = Ok (empty_report now)
  ∧ wifi_items (wifi_info (empty_report now)) = [("networks", [])].
Proof.
  split; [|split; [|split; [|split]]].
  - split.
    + intros [r Hr]. destruct (literals_sized content) eqn:Hs; [done|].
      by rewrite parse_report_content_raises in Hr.
    + intros Hs.
      destruct (parse_report_content_spec now content Hs)
        as (nw & cell & _ & _ & _ & ->).
      by eexists.
  - apply parse_report_content_raises.
  - intros Hu. pose proof (unrecognized_sized content Hu) as Hs.
    destruct Hu as (Hdev & Hand & Hperm & Hsim & Hwifi & Hcell & Hlte).
    destruct (parse_report_content_spec now content Hs)
      as (nw & cell & Hnw & _ & Hk & ->).
    rewrite Hwifi in Hnw. injection Hnw as <-.
    unfold empty_report, device_of, sim_of. rewrite Hdev, Hand, Hsim.
    rewrite parse_permissions_none by done.
    do 2 f_equal. apply map_eq. intros k. rewrite Hk, lookup_empty.
    unfold lte_lookup, location_of. rewrite Hcell.
    case_bool_decide as Hin; [|done].
    by rewrite lte_hits_nil.
  - by vm_compute.
  - done.
Qed.

Lemma parse_total_and_empty_witness :
  unrecognized "no report here: nothing"
  ∧ parse_report_content "t" "no report here: nothing" = Ok (empty_report "t").
Proof.
  assert (unrecognized "no report here: nothing") as H.
  { unfold unrecognized. cbv zeta.
    split; [by vm_compute|]. split; [by vm_compute|]. split.
    { intros kp Hkp. rewrite perm_table in Hkp.
      repeat (apply elem_of_cons in Hkp as [->|Hkp]; [by vm_compute|]).
      by apply elem_of_nil in Hkp. }
    split; [by vm_compute|]. split; [by vm_compute|]. split; [by vm_compute|].
    intros m Hm. vm_compute in Hm. by apply elem_of_nil in Hm. }
  split; [exact H|].
  destruct (parse_total_and_empty "t" "no report here: nothing") as (_ & _ & Hu & _).
  exact (Hu H).
Defined.

(** C6 (counterexample): a labelled integer of 4301 digits makes the parser
    raise [ValueError]; and in the report of the empty text [wifi_info] has
    an entry, the key "networks". *)
Lemma parse_oversized_literal_raises :
  parse_report_content "t" ("tac: " +:+ str_of (replicate 4301 "1"%char))
    = Raise ValueError
  ∧ ∃ r, parse_report_content "t" "" = Ok r
      ∧ wifi_items (wifi_info r) = [("networks", [])]
      ∧ wifi_items (wifi_info r) ≠ [].
Proof.
  split; [by vm_compute|].
  eexists. split; [by vm_compute|]. split; [by vm_compute|done].
Qed.

(** ** The scan for labelled integers *)



(** ** The digest *)

Lemma hex_char_hex n : (n < 16)%N → is_hex (SHA256.hex_char n) = true.
Proof.
  intros Hn. unfold SHA256.hex_char, is_hex, is_digit, in_range, code.
  destruct (N.ltb_spec n 10).
  - rewrite N_ascii_embedding by lia. apply orb_true_iff. left.
    apply andb_true_iff. split; apply N.leb_le; lia.
  - rewrite N_ascii_embedding by lia. apply orb_true_iff. right.
    apply andb_true_iff. split; apply N.leb_le; lia.
Qed.

Lemma hex_of_length k n : length (SHA256.hex_of k n) = k.
Proof.
  revert n. induction k as [|k IH]; intros n; [done|].
  cbn [SHA256.hex_of]. rewrite length_app, IH. simpl. lia.
Qed.

Lemma hex_of_hex k n : Forall (λ c, is_hex c = true) (SHA256.hex_of k n).
Proof.
  revert n. induction k as [|k IH]; intros n; [done|].
  cbn [SHA256.hex_of]. apply Forall_app. split; [apply IH|].
  constructor; [|done]. apply hex_char_hex.
  change 0xf%N with (N.ones 4). rewrite N.land_ones.
  apply N.mod_lt. done.
Qed.

Lemma round_length st kw : length (SHA256.round st kw) = length st.
Proof.
  unfold SHA256.round.
  do 9 (destruct st as [|? st]; [done|]). done.
Qed.

Lemma compress_length h block : length (SHA256.compress h block) = length h.
Proof.
  unfold SHA256.compress. rewrite length_zip_with.
  assert (∀ l st, length (foldl SHA256.round st l) = length st) as ->.
  { intros l. induction l as [|kw l IH]; intros st; [done|].
    cbn [foldl]. by rewrite IH, round_length. }
  lia.
Qed.

Lemma blocks_length fuel ws h : length (SHA256.blocks fuel ws h) = length h.
Proof.
  revert ws h. induction fuel as [|fuel IH]; intros ws h; [done|].
  cbn [SHA256.blocks]. destruct ws; [done|].
  by rewrite IH, compress_length.
Qed.

Lemma digest_length msg : length (SHA256.digest msg) = 8%nat.
Proof. unfold SHA256.digest. by rewrite blocks_length. Qed.

Lemma mjoin_cons {A} (x : list A) (l : list (list A)) :
  mjoin (x :: l) = x ++ mjoin l.
Proof. done. Qed.

Lemma mjoin_hex_length (ws : list N) :
  length (mjoin (SHA256.hex_of 8 <$> ws)) = (8 * length ws)%nat.
Proof.
  induction ws as [|w ws IH]; [done|].
  rewrite fmap_cons, mjoin_cons, length_app, hex_of_length, IH.
  cbn [length]. lia.
Qed.

Lemma hexdigest_length msg : length (chars (SHA256.hexdigest msg)) = 64%nat.
Proof.
  unfold SHA256.hexdigest.
  by rewrite chars_str_of, mjoin_hex_length, digest_length.
Qed.

Lemma hexdigest_hex msg :
  Forall (λ c, is_hex c = true) (chars (SHA256.hexdigest msg)).
Proof.
  unfold SHA256.hexdigest. rewrite chars_str_of.
  induction (SHA256.digest msg) as [|w ws IH]; [done|].
  rewrite fmap_cons, mjoin_cons.
  apply Forall_app. split; [apply hex_of_hex|done].
Qed.

(** ** Ten characters after [mcc + mnc] *)

Lemma digits_hex l :
  Forall (λ c, is_digit c = true) l → Forall (λ c, is_hex c = true) l.
Proof.
  intros H. eapply Forall_impl; [exact H|].
  intros c Hc. unfold is_hex. by rewrite Hc.
Qed.

Lemma hexdigest_prefix_ten msg : ten_hex (str_take 10 (SHA256.hexdigest msg)).
Proof.
  unfold ten_hex, str_take. rewrite chars_str_of. split.
  - rewrite length_take, hexdigest_length. lia.
  - apply Forall_take, hexdigest_hex.
Qed.

(** The digits of a number below [10 ^ k]: at least one, at most [k]. *)
Lemma str_of_Z_length z k :
  0 ≤ z < 10 ^ Z.of_nat k → (1 ≤ k)%nat →
  (1 ≤ length (chars (str_of_Z z)) ≤ k)%nat
  ∧ Forall (λ c, is_digit c = true) (chars (str_of_Z z)).
Proof.
  intros [Hz Hlt] Hk.
  destruct (str_of_Z_digits z Hz) as (ds & -> & Hne & Hds & _ & Hlen).
  split; [|done]. split; [destruct ds; [done|simpl; lia]|].
  destruct Hlen as [->|Hlen]; [done|].
  destruct (decide (length ds ≤ k)%nat) as [|Hgt]; [done|].
  assert (10 ^ Z.of_nat k ≤ 10 ^ Z.of_nat (length ds - 1)); [|lia].
  apply Z.pow_le_mono_r; lia.
Qed.

Lemma zfill_digits width z :
  0 ≤ z < 10 ^ Z.of_nat width → (1 ≤ width)%nat →
  length (chars (zfill width (str_of_Z z))) = width
  ∧ Forall (λ c, is_digit c = true) (chars (zfill width (str_of_Z z))).
Proof.
  intros Hz Hw. destruct (str_of_Z_length z width Hz Hw) as [Hlen Hds].
  unfold zfill. destruct (chars (str_of_Z z)) as [|d ds] eqn:Heq.
  { simpl in Hlen. lia. }
  inversion Hds as [|?? Hd Hds']; subst.
  rewrite !(is_char_digit _ d) by (done || by vm_compute). cbn [orb].
  rewrite chars_str_of. split.
  - rewrite length_app, length_replicate. lia.
  - apply Forall_app. split; [|done].
    apply Forall_replicate. by vm_compute.
Qed.

Lemma math_suffix_ten t p c :
  ten_hex (zfill 10 (str_of_Z ((t * p * c) `mod` 1000000000))).
Proof.
  destruct (zfill_digits 10 ((t * p * c) `mod` 1000000000)) as [Hlen Hds].
  - pose proof (Z.mod_pos_bound (t * p * c) 1000000000). simpl. lia.
  - lia.
  - split; [done|]. by apply digits_hex.
Qed.

Lemma randint_digit g :
  length (chars (str_of_Z (randint 0 9 g).1)) = 1%nat
  ∧ Forall (λ c, is_digit c = true) (chars (str_of_Z (randint 0 9 g).1)).
Proof.
  unfold randint, randbelow. cbn [fst].
  change (Z.to_nat (9 - 0 + 1)) with 10%nat.
  pose proof (Nat.mod_upper_bound (tape g (cursor g)) 10).
  destruct (str_of_Z_length (0 + Z.of_nat (tape g (cursor g) `mod` 10)) 1)
    as [Hlen Hds]; [simpl; lia|lia|].
  split; [lia|done].
Qed.

Lemma random_digits_spec n g :
  length (chars (random_digits n g).1) = n
  ∧ Forall (λ c, is_digit c = true) (chars (random_digits n g).1).
Proof.
  revert g. induction n as [|n IH]; intros g; [done|].
  cbn [random_digits].
  destruct (randint 0 9 g) as [d g1] eqn:Hd.
  destruct (random_digits n g1) as [s g2] eqn:Hs.
  cbn [fst]. rewrite chars_app, length_app.
  pose proof (randint_digit g) as [Hl Hds]. rewrite Hd in Hl, Hds.
  pose proof (IH g1) as [Hl' Hds']. rewrite Hs in Hl', Hds'.
  cbn [fst] in *. split; [lia|]. by apply Forall_app.
Qed.

Lemma random_ten g : ten_hex (random_digits 10 g).1.
Proof.
  destruct (random_digits_spec 10 g) as [Hl Hds].
  split; [done|]. by apply digits_hex.
Qed.

(** ** Subscriber identifiers *)

Lemma py_str_Ok v s : py_str v = Ok s → s = py_text v.
Proof.
  destruct v as [x|z|b|]; cbn [py_str py_text]; try by intros [= <-].
  destruct (int_shown z); [by intros [= <-]|done].
Qed.

Lemma py_str_returns v : returns (py_str v) → py_str v = Ok (py_text v).
Proof. intros [s Hs]. by rewrite Hs, (py_str_Ok _ _ Hs). Qed.

Lemma py_str_exn v e : py_str v = Raise e → e = ValueError.
Proof.
  destruct v as [x|z|b|]; cbn [py_str]; try done.
  destruct (int_shown z); congruence.
Qed.

Lemma py_str_int z : int_shown z = true → py_str (PInt z) = Ok (str_of_Z z).
Proof. intros H. cbn [py_str]. by rewrite H. Qed.

(** A value whose text [int] accepts is one that [str] prints. *)
Lemma py_str_of_int_text v : returns (int_of_str (py_text v)) → returns (py_str v).
Proof.
  destruct v as [x|z|b|]; cbn [py_str py_text]; try by eexists.
  intros [y Hy]. destruct (int_shown z) eqn:Hz; [by eexists|].
  by rewrite int_of_str_not_shown in Hy.
Qed.

(** [int] raises [TypeError] for [None], and [ValueError] for a string that
    is no literal. *)
Lemma py_int_exn v e :
  py_int v = Raise e →
  (v = PNone ∧ e = TypeError) ∨ ((∃ s, v = PStr s) ∧ e = ValueError).
Proof.
  destruct v as [x|z|b|]; cbn [py_int]; try done.
  - intros H%int_of_str_exn. right. split; [by eexists|done].
  - intros [= <-]. by left.
Qed.

Lemma math_imsi_ok m n tac pci ci t p c :
  py_int tac = Ok t → int_of_str pci = Ok p → int_of_str ci = Ok c →
  math_imsi (PStr m) (PStr n) tac pci ci =
    Ok ((m +:+ n) +:+ zfill 10 (str_of_Z ((t * p * c) `mod` 1000000000))).
Proof. intros Ht Hp Hc. unfold math_imsi. simpl. by rewrite Ht, Hp, Hc. Qed.

Lemma math_imsi_raises m n tac pci ci :
  tac ≠ PNone →
  ¬ returns (py_int tac) ∨ ¬ returns (int_of_str pci) ∨ ¬ returns (int_of_str ci) →
  math_imsi (PStr m) (PStr n) tac pci ci = Raise ValueError.
Proof.
  intros Hnone H. unfold math_imsi. simpl.
  destruct (py_int tac) as [t|e] eqn:Ht; simpl.
  2: { apply py_int_exn in Ht as [[? _]|[_ ->]]; done. }
  destruct (int_of_str pci) as [p|e] eqn:Hp; simpl.
  2: { by rewrite (int_of_str_exn _ _ Hp). }
  destruct (int_of_str ci) as [c|e] eqn:Hc; simpl.
  2: { by rewrite (int_of_str_exn _ _ Hc). }
  destruct H as [H|[H|H]]; exfalso; apply H; by eexists.
Qed.

(** What the hash-derived candidate is made of. *)
Lemma imsi_step_strings m n tac pci ci i acc g t :
  py_str tac = Ok t →
  imsi_step (PStr m) (PStr n) tac pci ci i acc g =
    (math ← math_imsi (PStr m) (PStr n) tac pci ci;
     let '(digits, g') := random_digits 10 g in
     mret (acc ++ [(m +:+ n) +:+ str_take 10 (SHA256.hexdigest
             (encode (m +:+ n +:+ t +:+ pci +:+ ci +:+ str_of_Z i)));
           math; (m +:+ n) +:+ digits], g')).
Proof.
  intros Ht. unfold imsi_step. cbn [py_str py_text mbind result_bind].
  rewrite Ht. cbn [mbind result_bind py_add py_add_str].
  destruct (math_imsi _ _ _ _ _) as [math|e]; [|done].
  cbn [mbind result_bind]. by destruct (random_digits 10 g).
Qed.

Lemma imsi_step_ok m n tac pci ci i acc g :
  returns (py_str tac) →
  returns (py_int tac) → returns (int_of_str pci) → returns (int_of_str ci) →
  ∃ a b r,
    imsi_step (PStr m) (PStr n) tac pci ci i acc g =
      Ok (acc ++ [a; b; r], (random_digits 10 g).2)
    ∧ imsi_shape m n a ∧ imsi_shape m n b ∧ imsi_shape m n r.
Proof.
  intros [ts Hts] [t Ht] [p Hp] [c Hc].
  rewrite (imsi_step_strings _ _ _ _ _ _ _ _ ts) by done.
  rewrite (math_imsi_ok _ _ _ _ _ t p c) by done.
  destruct (random_digits 10 g) as [ds g'] eqn:Hds. simpl.
  eexists _, _, _. split; [done|]. repeat split.
  - eexists. split; [done|]. apply hexdigest_prefix_ten.
  - eexists. split; [done|]. apply math_suffix_ten.
  - eexists. split; [done|].
    pose proof (random_ten g) as H. by rewrite Hds in H.
Qed.

Lemma imsi_step_raises m n tac pci ci i acc g :
  tac ≠ PNone →
  ¬ returns (py_int tac) ∨ ¬ returns (int_of_str pci) ∨ ¬ returns (int_of_str ci) →
  imsi_step (PStr m) (PStr n) tac pci ci i acc g = Raise ValueError.
Proof.
  intros Hnone H. destruct (py_str tac) as [ts|e] eqn:Hts.
  - rewrite (imsi_step_strings _ _ _ _ _ _ _ _ ts) by done.
    by rewrite math_imsi_raises.
  - unfold imsi_step. cbn [py_str py_text mbind result_bind].
    rewrite Hts. cbn [mbind result_bind]. by rewrite (py_str_exn _ _ Hts).
Qed.

(** [int(None)] raises [TypeError]. *)
Lemma imsi_step_None m n pci ci i acc g :
  imsi_step (PStr m) (PStr n) PNone pci ci i acc g = Raise TypeError.
Proof. by rewrite (imsi_step_strings _ _ _ _ _ _ _ _ "None"). Qed.

(** A step that returns met no value that [str] or [int] rejects. *)
Lemma imsi_step_inv m n tac pci ci i acc g r :
  imsi_step (PStr m) (PStr n) tac pci ci i acc g = Ok r →
  returns (py_str tac) ∧ returns (py_int tac)
  ∧ returns (int_of_str pci) ∧ returns (int_of_str ci).
Proof.
  intros H. destruct (py_str tac) as [ts|e] eqn:Hts.
  2: { unfold imsi_step in H. cbn [py_str py_text mbind result_bind] in H.
       by rewrite Hts in H. }
  split; [by eexists|].
  rewrite (imsi_step_strings _ _ _ _ _ _ _ _ ts) in H by done.
  unfold math_imsi in H. cbn [py_add mbind result_bind] in H.
  destruct (py_int tac) as [t|e]; [|done]. cbn [mbind result_bind] in H.
  destruct (int_of_str pci) as [p|e]; [|done]. cbn [mbind result_bind] in H.
  destruct (int_of_str ci) as [c|e]; [|done].
  repeat split; by eexists.
Qed.

Lemma imsi_loop_ok m n tac pci ci rounds i acc g :
  returns (py_str tac) →
  returns (py_int tac) → returns (int_of_str pci) → returns (int_of_str ci) →
  ∃ pool g',
    imsi_loop (PStr m) (PStr n) tac pci ci rounds i acc g = Ok (acc ++ pool, g')
    ∧ length pool = (3 * rounds)%nat
    ∧ Forall (imsi_shape m n) pool.
Proof.
  intros Hs Ht Hp Hc. revert i acc g.
  induction rounds as [|rounds IH]; intros i acc g; cbn [imsi_loop].
  - exists [], g. by rewrite app_nil_r.
  - destruct (imsi_step_ok m n tac pci ci i acc g Hs Ht Hp Hc)
      as (a & b & r & -> & Ha & Hb & Hr).
    cbn [mbind result_bind].
    destruct (IH (i + 1) (acc ++ [a; b; r]) (random_digits 10 g).2)
      as (pool & g' & -> & Hlen & Hpool).
    exists ([a; b; r] ++ pool), g'. rewrite app_assoc. split; [done|].
    split; [rewrite length_app; simpl; lia|].
    apply Forall_app. split; [|done]. by repeat constructor.
Qed.

Lemma imsi_loop_raises m n tac pci ci rounds i acc g :
  tac ≠ PNone →
  ¬ returns (py_int tac) ∨ ¬ returns (int_of_str pci) ∨ ¬ returns (int_of_str ci) →
  imsi_loop (PStr m) (PStr n) tac pci ci (S rounds) i acc g = Raise ValueError.
Proof.
  intros Hnone H. cbn [imsi_loop]. by rewrite imsi_step_raises.
Qed.

(** A loop that returns went through every round without raising. *)
Lemma imsi_loop_inv m n tac pci ci rounds i acc g pool g' :
  imsi_loop (PStr m) (PStr n) tac pci ci rounds i acc g = Ok (pool, g') →
  ∃ new, pool = acc ++ new ∧ length new = (3 * rounds)%nat
    ∧ Forall (imsi_shape m n) new.
Proof.
  destruct rounds as [|rounds].
  { intros [= <- <-]. exists []. by rewrite app_nil_r. }
  intros H.
  assert (returns (py_str tac) ∧ returns (py_int tac)
    ∧ returns (int_of_str pci) ∧ returns (int_of_str ci)) as (Hs & Ht & Hp & Hc).
  { cbn [imsi_loop] in H.
    destruct (imsi_step (PStr m) (PStr n) tac pci ci i acc g) as [r|e] eqn:Hstep;
      [|done].
    by eapply imsi_step_inv. }
  destruct (imsi_loop_ok m n tac pci ci (S rounds) i acc g Hs Ht Hp Hc)
    as (new & g'' & Hloop & Hlen & Hnew).
  rewrite Hloop in H. injection H as <- <-. by exists new.
Qed.

(** One sound order for [list(set(l))]: the order of [l]. *)
Lemma remove_dups_listing : set_listing remove_dups.
Proof.
  intros l. split; [apply NoDup_remove_dups|].
  intros x. apply elem_of_remove_dups.
Qed.

Lemma set_listing_nil los : set_listing los → los [] = [].
Proof.
  intros H. destruct (los []) as [|x l] eqn:Heq; [done|].
  destruct (H []) as [_ Hin]. rewrite Heq in Hin.
  exfalso. eapply not_elem_of_nil, Hin. left.
Qed.

Lemma set_listing_elem los l x : set_listing los → x ∈ los l → x ∈ l.
Proof. intros H. apply (H l). Qed.

Lemma slice_to_elem {A} (x : A) l n : x ∈ slice_to l n → x ∈ l.
Proof. unfold slice_to. destruct (n <? 0); apply subseteq_take. Qed.

Lemma slice_to_length {A} (l : list A) n :
  0 ≤ n → Z.of_nat (length (slice_to l n)) ≤ n.
Proof.
  intros Hn. unfold slice_to. assert ((n <? 0) = false) as -> by lia.
  rewrite length_take. lia.
Qed.

Lemma all_digits_Forall s :
  all_digits s = true → Forall (λ c, is_digit c = true) (chars s).
Proof.
  unfold all_digits. induction (chars s) as [|c l IH]; [done|].
  simpl. intros [Hc Hl]%andb_true_iff. constructor; [done|by apply IH].
Qed.

Lemma Forall_all_digits s :
  Forall (λ c, is_digit c = true) (chars s) → all_digits s = true.
Proof.
  unfold all_digits. induction 1 as [|c l Hc _ IH]; [done|].
  simpl. by rewrite Hc, IH.
Qed.

Lemma numeric_string_int v :
  numeric_string v →
  returns (py_str v) ∧ returns (py_int v) ∧ returns (int_of_str (py_text v)).
Proof.
  intros (s & -> & Hne & Hds%all_digits_Forall & Hlen). simpl.
  assert (returns (int_of_str s)); [|split; [by eexists|done]].
  apply int_of_str_signed.
  - exists [], (chars s). split; [done|]. split; [by left|]. split; [|done].
    intros Hnil. apply Hne, chars_inj. by rewrite Hnil.
  - apply sized_spec. rewrite count_digits_length by done.
    by rewrite <- str_length.
Qed.

(** The synthesis once the count and the texts of the pci and of the
    cell-id are printed: the loop and the slice of its pool. *)
Lemma calculate_possible_imsis_unfold los d count g :
  int_shown count = true →
  returns (py_str (py_get d "pci" (PStr "0"))) →
  returns (py_str (py_get d "ci" (PStr "0"))) →
  calculate_possible_imsis los d count g =
    match imsi_loop (base_mcc d) (base_mnc d) (base_tac d) (base_pci d) (base_ci d)
            (rounds_of count) 0 [] g with
    | Ok (pool, g') => Ok (slice_to (los pool) count, g')
    | Raise e => Raise e
    end.
Proof.
  intros Hcount Hp%py_str_returns Hc%py_str_returns.
  unfold calculate_possible_imsis. rewrite (py_str_int _ Hcount), Hp, Hc.
  cbn [mbind result_bind].
  unfold base_mcc, base_mnc, base_tac, base_pci, base_ci, rounds_of.
  by destruct (imsi_loop _ _ _ _ _ _ _ _ _) as [[pool g']|e].
Qed.

Lemma calculate_possible_imsis_strings los d count g m n :
  int_shown count = true →
  base_mcc d = PStr m → base_mnc d = PStr n →
  returns (int_of_str (base_pci d)) → returns (int_of_str (base_ci d)) →
  calculate_possible_imsis los d count g =
    match imsi_loop (PStr m) (PStr n) (base_tac d) (base_pci d) (base_ci d)
            (rounds_of count) 0 [] g with
    | Ok (pool, g') => Ok (slice_to (los pool) count, g')
    | Raise e => Raise e
    end.
Proof.
  intros Hcount Hm Hn Hp%py_str_of_int_text Hc%py_str_of_int_text.
  rewrite calculate_possible_imsis_unfold by done. by rewrite Hm, Hn.
Qed.

(** A synthesis that returns printed the count, and its list is the slice
    of the pool of the loop. *)
Lemma calculate_possible_imsis_Ok los d count g l g' :
  calculate_possible_imsis los d count g = Ok (l, g') →
  int_shown count = true
  ∧ ∃ pool,
      imsi_loop (base_mcc d) (base_mnc d) (base_tac d) (base_pci d) (base_ci d)
        (rounds_of count) 0 [] g = Ok (pool, g')
      ∧ l = slice_to (los pool) count.
Proof.
  intros H.
  assert (int_shown count = true) as Hcount.
  { unfold calculate_possible_imsis in H. cbn [py_str] in H.
    by destruct (int_shown count). }
  assert (returns (py_str (py_get d "pci" (PStr "0")))) as Hp.
  { unfold calculate_possible_imsis in H. rewrite (py_str_int _ Hcount) in H.
    cbn [mbind result_bind] in H.
    destruct (py_str (py_get d "pci" (PStr "0"))); [by eexists|done]. }
  assert (returns (py_str (py_get d "ci" (PStr "0")))) as Hc.
  { unfold calculate_possible_imsis in H. rewrite (py_str_int _ Hcount) in H.
    rewrite (py_str_returns _ Hp) in H. cbn [mbind result_bind] in H.
    destruct (py_str (py_get d "ci" (PStr "0"))); [by eexists|done]. }
  split; [done|].
  rewrite calculate_possible_imsis_unfold in H by done.
  destruct (imsi_loop _ _ _ _ _ _ _ _ _) as [[pool g'']|e]; [|done].
  injection H as <- <-. by exists pool.
Qed.

Lemma str_take_app s t : str_take (length (chars s)) (s +:+ t) = s.
Proof.
  unfold str_take. by rewrite chars_app, take_app_length, str_of_chars.
Qed.

Lemma imsi_shape_length m n x :
  imsi_shape m n x →
  String.length x = (String.length m + String.length n + 10)%nat.
Proof.
  intros (sfx & -> & Hlen & _).
  rewrite !str_length, !chars_app, !length_app. lia.
Qed.

Lemma imsi_shape_prefix m n x :
  imsi_shape m n x →
  str_take (length (chars m) + length (chars n)) x = m +:+ n.
Proof.
  intros (sfx & -> & _). rewrite <- length_app, <- chars_app.
  apply str_take_app.
Qed.

(** C2 (as amended): when mcc and mnc are strings, every candidate that
    [calculate_possible_imsis] returns is mcc + mnc followed by exactly ten
    characters, each a decimal digit or one of the letters a to f, so it has
    [len(mcc) + len(mnc) + 10] characters (16 for the default mcc and mnc);
    it is neither 15 characters long nor a string of decimal digits in
    general. *)
Theorem imsi_candidate_shape los d count g l g' m n :
  set_listing los →
  base_mcc d = PStr m → base_mnc d = PStr n →
  calculate_possible_imsis los d count g = Ok (l, g') →
  ∀ x, x ∈ l →
    imsi_shape m n x
    ∧ String.length x = (String.length m + String.length n + 10)%nat.
Proof.
  intros Hlos Hm Hn Hcalc x Hx.
  apply calculate_possible_imsis_Ok in Hcalc as (_ & pool & Hloop & ->).
  rewrite Hm, Hn in Hloop.
  apply imsi_loop_inv in Hloop as (new & -> & _ & Hnew).
  apply slice_to_elem, (set_listing_elem _ _ _ Hlos) in Hx.
  rewrite Forall_forall in Hnew. specialize (Hnew x Hx).
  split; [done|]. by apply imsi_shape_length.
Qed.

Lemma imsi_candidate_shape_witness :
  imsi_shape "310" "260" "3102604a51cea693"
  ∧ String.length "3102604a51cea693" = 16%nat.
Proof.
  apply (imsi_candidate_shape remove_dups ∅ 1 zero_tape
    ["3102604a51cea693"] {| tape := λ _, 0%nat; cursor := 10 |} "310" "260").
  - apply remove_dups_listing.
  - reflexivity.
  - reflexivity.
  - by vm_compute.
  - left.
Defined.

(** C2 (counterexample): with no cell data at all, the first candidate
    returned has 16 characters, and letters among them. *)
Lemma imsi_default_has_16_characters :
  calculate_possible_imsis remove_dups ∅ 1 zero_tape
    = Ok (["3102604a51cea693"], {| tape := λ _, 0%nat; cursor := 10 |})
  ∧ String.length "3102604a51cea693" = 16%nat
  ∧ all_digits "3102604a51cea693" = false.
Proof. split; [by vm_compute|]. split; by vm_compute. Qed.

(** C8 (as amended): when the five cell parameters are strings of digits
    (the defaults are), of no more digits than [int] reads, and the count
    is one that [str] prints, [calculate_possible_imsis] returns, the list
    it returns has at most [max count 0] elements, and the first
    [len(mcc) + len(mnc)] characters of each are mcc + mnc. *)
Theorem imsi_count_and_prefix los d count g :
  set_listing los → int_shown count = true →
  numeric_string (base_mcc d) → numeric_string (base_mnc d) →
  numeric_string (base_tac d) →
  numeric_string (py_get d "pci" (PStr "0")) →
  numeric_string (py_get d "ci" (PStr "0")) →
  ∃ l g' m n,
    base_mcc d = PStr m ∧ base_mnc d = PStr n
    ∧ calculate_possible_imsis los d count g = Ok (l, g')
    ∧ Z.of_nat (length l) ≤ Z.max count 0
    ∧ ∀ x, x ∈ l → str_take (length (chars m) + length (chars n)) x = m +:+ n.
Proof.
  intros Hlos Hcount (m & Hm & _) (n & Hn & _) (Hs & Ht & _)%numeric_string_int
    (_ & _ & Hp)%numeric_string_int (_ & _ & Hc)%numeric_string_int.
  fold (base_pci d) in Hp. fold (base_ci d) in Hc.
  destruct (imsi_loop_ok m n (base_tac d) (base_pci d) (base_ci d)
    (rounds_of count) 0 [] g Hs Ht Hp Hc) as (pool & g' & Hloop & Hlen & Hpool).
  exists (slice_to (los pool) count), g', m, n.
  split; [done|]. split; [done|].
  rewrite (calculate_possible_imsis_strings _ _ _ _ m n) by done.
  rewrite Hloop. split; [done|]. split.
  - destruct (Z_lt_le_dec count 0) as [Hneg|Hpos].
    + assert (rounds_of count = 0%nat) as Hr
        by (unfold rounds_of, range_len, MAX_CALCULATIONS; lia).
      rewrite Hr in Hlen. destruct pool; [|done].
      rewrite (set_listing_nil los Hlos). unfold slice_to.
      destruct (count <? 0); rewrite take_nil; simpl; lia.
    + pose proof (slice_to_length (los pool) count Hpos). lia.
  - intros x Hx%slice_to_elem. apply (set_listing_elem _ _ _ Hlos) in Hx.
    rewrite Forall_forall in Hpool. by apply imsi_shape_prefix, Hpool.
Qed.

Lemma imsi_count_and_prefix_witness :
  ∃ l g', calculate_possible_imsis remove_dups
            {[ "mcc" := PStr "311"; "mnc" := PStr "48" ]} 2 zero_tape = Ok (l, g')
    ∧ Z.of_nat (length l) ≤ 2
    ∧ ∀ x, x ∈ l → str_take 5 x = "31148".
Proof.
  destruct (imsi_count_and_prefix remove_dups
    {[ "mcc" := PStr "311"; "mnc" := PStr "48" ]} 2 zero_tape)
    as (l & g' & m & n & Hm & Hn & Hcalc & Hlen & Hpre).
  - apply remove_dups_listing.
  - by vm_compute.
  - exists "311". by vm_compute.
  - exists "48". by vm_compute.
  - exists "0000". by vm_compute.
  - exists "0". by vm_compute.
  - exists "0". by vm_compute.
  - vm_compute in Hm. injection Hm as <-.
    vm_compute in Hn. injection Hn as <-.
    exists l, g'. split; [done|]. split; [done|]. exact Hpre.
Defined.

(** C8 (counterexample): for the count -1 the list returned is empty, and
    its length 0 is not at most -1. *)
Lemma imsi_negative_count :
  calculate_possible_imsis remove_dups ∅ (-1) zero_tape = Ok ([], zero_tape)
  ∧ ¬ (Z.of_nat (length (@nil string)) ≤ -1).
Proof. split; [by vm_compute|]. simpl. lia. Qed.

(** ** Parameters that are not integers *)

Lemma rounds_of_pos count : 1 ≤ count → ∃ r, rounds_of count = S r.
Proof.
  intros H. unfold rounds_of, range_len, MAX_CALCULATIONS.
  exists (Z.to_nat (Z.min count 100) - 1)%nat. lia.
Qed.

(** A value that [int] rejects makes the synthesis raise [ValueError],
    whether [str] prints the other values or not. *)
Lemma calculate_possible_imsis_bad los d count g m n :
  1 ≤ count →
  base_mcc d = PStr m → base_mnc d = PStr n → base_tac d ≠ PNone →
  ¬ returns (py_int (base_tac d)) ∨ ¬ returns (int_of_str (base_pci d))
    ∨ ¬ returns (int_of_str (base_ci d)) →
  calculate_possible_imsis los d count g = Raise ValueError.
Proof.
  intros Hcount Hm Hn Hnone Hbad.
  destruct (int_shown count) eqn:Hshown; last first.
  { unfold calculate_possible_imsis. cbn [py_str]. by rewrite Hshown. }
  destruct (py_str (py_get d "pci" (PStr "0"))) as [p|e] eqn:Hp; last first.
  { unfold calculate_possible_imsis. rewrite (py_str_int _ Hshown), Hp.
    cbn [mbind result_bind]. by rewrite (py_str_exn _ _ Hp). }
  destruct (py_str (py_get d "ci" (PStr "0"))) as [c|e] eqn:Hc; last first.
  { unfold calculate_possible_imsis. rewrite (py_str_int _ Hshown), Hp, Hc.
    cbn [mbind result_bind]. by rewrite (py_str_exn _ _ Hc). }
  rewrite calculate_possible_imsis_unfold by (done || by eexists).
  destruct (rounds_of_pos count Hcount) as [r ->].
  by rewrite Hm, Hn, imsi_loop_raises.
Qed.

(** C5 (as amended): when mcc and mnc are strings and the count is at least
    1, a value that [int] rejects for the tac, or for the text of the pci
    or of the cell-id (read under the key "ci"), makes
    [calculate_possible_imsis] raise [ValueError], but for a tac of [None],
    for which it raises [TypeError]; the program has no other error for it.
    With a tac, a pci and a cell-id that [str] and [int] accept it returns,
    whatever the strings mcc and mnc are. *)
Theorem imsi_bad_parameter_raises_ValueError los d count g m n :
  1 ≤ count → int_shown count = true →
  base_mcc d = PStr m → base_mnc d = PStr n →
  (¬ returns (py_int (base_tac d)) ∨ ¬ returns (int_of_str (base_pci d))
     ∨ ¬ returns (int_of_str (base_ci d)) →
   base_tac d ≠ PNone →
   calculate_possible_imsis los d count g = Raise ValueError)
  ∧ (base_tac d = PNone →
     returns (py_str (py_get d "pci" (PStr "0"))) →
     returns (py_str (py_get d "ci" (PStr "0"))) →
     calculate_possible_imsis los d count g = Raise TypeError)
  ∧ (returns (py_str (base_tac d)) → returns (py_int (base_tac d)) →
     returns (int_of_str (base_pci d)) → returns (int_of_str (base_ci d)) →
     returns (calculate_possible_imsis los d count g)).
Proof.
  intros Hcount Hshown Hm Hn. split; [|split].
  - intros Hbad Hnone. by eapply calculate_possible_imsis_bad.
  - intros Hnone Hp Hc.
    rewrite calculate_possible_imsis_unfold by done.
    destruct (rounds_of_pos count Hcount) as [r ->].
    rewrite Hm, Hn, Hnone. cbn [imsi_loop]. by rewrite imsi_step_None.
  - intros Hs Ht Hp Hc.
    destruct (imsi_loop_ok m n (base_tac d) (base_pci d) (base_ci d)
      (rounds_of count) 0 [] g Hs Ht Hp Hc) as (pool & g' & Hloop & _).
    rewrite (calculate_possible_imsis_strings _ _ _ _ m n) by done.
    rewrite Hloop. by eexists.
Qed.

Lemma imsi_bad_parameter_raises_ValueError_witness :
  calculate_possible_imsis remove_dups {[ "ci" := PStr "0x1f" ]} 3 zero_tape
    = Raise ValueError.
Proof.
  destruct (imsi_bad_parameter_raises_ValueError remove_dups
    {[ "ci" := PStr "0x1f" ]} 3 zero_tape "310" "260") as [Hbad _].
  - lia.
  - by vm_compute.
  - reflexivity.
  - reflexivity.
  - apply Hbad; [|done]. right. right. intros [z Hz]. by vm_compute in Hz.
Defined.

(** C5 (counterexample): a tac that is not a number makes the synthesis
    raise [ValueError], and a tac of [None] makes it raise [TypeError];
    neither is an [InvalidParameterError]. *)
Lemma imsi_bad_tac_is_not_InvalidParameterError :
  calculate_possible_imsis remove_dups {[ "tac" := PStr "abc" ]} 1 zero_tape
    = Raise ValueError
  ∧ calculate_possible_imsis remove_dups {[ "tac" := PNone ]} 1 zero_tape
    = Raise TypeError
  ∧ exn_name ValueError ≠ "InvalidParameterError"
  ∧ exn_name TypeError ≠ "InvalidParameterError".
Proof. split; [by vm_compute|]. split; [by vm_compute|done]. Qed.

(** ** Equipment identifiers *)

Lemma int_of_digit c : is_digit c = true → int_of_str (String c "") = Ok (digit_val c).
Proof.
  intros Hc. apply int_of_str_Ok. change (chars (String c "")) with [c]. split.
  - rewrite int_literal_digits; [|done|by constructor].
    unfold dec_value. simpl. by f_equal.
  - cbn [count_digits]. rewrite Hc. unfold int_max_str_digits. lia.
Qed.

Lemma luhn_total_returns ds i total :
  Forall (λ c, is_digit c = true) ds → returns (luhn_total ds i total).
Proof.
  intros Hds. revert i total.
  induction Hds as [|c ds Hc _ IH]; intros i total; cbn [luhn_total].
  - by eexists.
  - rewrite int_of_digit by done. cbn [mbind result_bind]. apply IH.
Qed.

Lemma check_digit_returns base :
  Forall (λ c, is_digit c = true) (chars base) →
  ∃ cd, check_digit base = Ok cd ∧ 0 ≤ cd < 10.
Proof.
  intros Hds. unfold check_digit.
  destruct (luhn_total_returns (chars base) 0 0 Hds) as [total ->].
  eexists. split; [done|]. apply Z.mod_pos_bound. lia.
Qed.

Lemma choice_tac_db g :
  let tac := (choice tac_db g).1 in
  length (chars tac) = 2%nat ∧ Forall (λ c, is_digit c = true) (chars tac).
Proof.
  unfold choice, randbelow. cbn [fst tac_db length].
  pose proof (Nat.mod_upper_bound (tape g (cursor g)) 3) as Hk.
  destruct (tape g (cursor g) `mod` 3)%nat as [|[|[|k]]]; [..|lia];
    (split; [done|by repeat constructor]).
Qed.

Lemma imei_step_spec imeis g :
  ∃ x g', imei_step imeis g = Ok (imeis ++ [x], g') ∧ imei_shape x.
Proof.
  unfold imei_step.
  pose proof (choice_tac_db g) as [Htl Htd].
  destruct (choice tac_db g) as [tac g1]. cbn [fst] in Htl, Htd.
  pose proof (random_digits_spec 12 g1) as [Hsl Hsd].
  destruct (random_digits 12 g1) as [serial g2]. cbn [fst] in Hsl, Hsd.
  assert (Forall (λ c, is_digit c = true) (chars (tac +:+ serial))) as Hbase.
  { rewrite chars_app. by apply Forall_app. }
  destruct (check_digit_returns _ Hbase) as (cd & Hcd & Hrange).
  rewrite Hcd. cbn [mbind result_bind mret result_ret].
  eexists _, _. split; [done|].
  destruct (str_of_Z_length cd 1) as [Hcl Hcds]; [simpl; lia|lia|].
  split; [|split].
  - rewrite str_length, !chars_app, !length_app. lia.
  - apply Forall_all_digits. rewrite chars_app. by apply Forall_app.
  - exists (tac +:+ serial), cd. split; [done|]. split; [|done].
    rewrite str_length, chars_app, length_app. lia.
Qed.

Lemma imei_loop_spec rounds imeis g :
  ∃ new g', imei_loop rounds imeis g = Ok (imeis ++ new, g')
    ∧ length new = rounds ∧ Forall imei_shape new.
Proof.
  revert imeis g. induction rounds as [|rounds IH]; intros imeis g;
    cbn [imei_loop].
  - exists [], g. by rewrite app_nil_r.
  - destruct (imei_step_spec imeis g) as (x & g1 & -> & Hx).
    cbn [mbind result_bind].
    destruct (IH (imeis ++ [x]) g1) as (new & g' & -> & Hlen & Hnew).
    exists (x :: new), g'. rewrite <- app_assoc. split; [done|].
    split; [simpl; lia|by constructor].
Qed.

Lemma calculate_possible_imeis_unfold count g :
  int_shown count = true →
  calculate_possible_imeis count g = imei_loop (rounds_of count) [] g.
Proof.
  intros Hcount. unfold calculate_possible_imeis.
  by rewrite (py_str_int _ Hcount).
Qed.

(** [calculate_possible_imeis] returns for every count that [str] prints:
    as many identifiers as there are rounds, each of 15 digits, the last
    one the check digit of lines 261 to 270 for the 14 before it. *)
Lemma calculate_possible_imeis_spec count g :
  int_shown count = true →
  ∃ l g', calculate_possible_imeis count g = Ok (l, g')
    ∧ length l = rounds_of count ∧ Forall imei_shape l.
Proof.
  intros Hcount. rewrite calculate_possible_imeis_unfold by done.
  destruct (imei_loop_spec (rounds_of count) [] g) as (new & g' & H & Hlen & Hnew).
  by exists new, g'.
Qed.

Lemma int_shown_limit : int_shown (10 ^ int_max_str_digits) = false.
Proof.
  apply not_true_iff_false. rewrite int_shown_pow.
  pose proof (Z.pow_nonneg 10 int_max_str_digits). lia.
Qed.

(** A count of more digits than [str] prints makes both functions raise:
    the message of their log line cannot be made. So does a pci of so many
    digits, even for a count of 0: line 223 prints it before the loop. *)
Lemma synthesis_unprinted_raises los d count g :
  calculate_possible_imeis (10 ^ int_max_str_digits) g = Raise ValueError
  ∧ calculate_possible_imsis los d (10 ^ int_max_str_digits) g = Raise ValueError
  ∧ (int_shown count = true →
     d !! "pci" = Some (PInt (10 ^ int_max_str_digits)) →
     calculate_possible_imsis los d count g = Raise ValueError).
Proof.
  pose proof int_shown_limit as Hbig. revert Hbig.
  generalize (10 ^ int_max_str_digits). intros big Hbig.
  assert (py_str (PInt big) = Raise ValueError) as Hstr
    by (cbn [py_str]; by rewrite Hbig).
  unfold calculate_possible_imeis, calculate_possible_imsis, py_get.
  split; [|split].
  - by rewrite Hstr.
  - by rewrite Hstr.
  - intros Hcount ->. rewrite (py_str_int _ Hcount).
    change (default (PStr "0") (Some (PInt big))) with (PInt big).
    by rewrite Hstr.
Qed.

(** C4 (as amended): [calculate_possible_imeis] returns for every count
    that [str] prints, with [min(max(count, 0), 100)] identifiers, so none
    for a count of 0 or less. [calculate_possible_imsis] returns for such a
    count when it is 0 or less and [str] prints the pci and the cell-id,
    with an empty list, and when mcc and mnc are strings and tac, pci and
    the cell-id are integers that [str] prints or strings that [int]
    accepts; it then makes three candidates in each of
    [min(max(count, 0), 100)] rounds and returns the first [count] of them
    without repetition. *)
Theorem synthesis_returns los d count g :
  set_listing los → int_shown count = true →
  (count ≤ 0 ∧ returns (py_str (py_get d "pci" (PStr "0")))
     ∧ returns (py_str (py_get d "ci" (PStr "0"))))
    ∨ imsi_inputs_ok d →
  (∃ l g', calculate_possible_imeis count g = Ok (l, g')
     ∧ length l = Z.to_nat (Z.min (Z.max count 0) 100))
  ∧ (∃ pool l g', calculate_possible_imsis los d count g = Ok (l, g')
       ∧ imsi_loop (base_mcc d) (base_mnc d) (base_tac d) (base_pci d)
           (base_ci d) (rounds_of count) 0 [] g = Ok (pool, g')
       ∧ length pool = (3 * Z.to_nat (Z.min (Z.max count 0) 100))%nat
       ∧ l = slice_to (los pool) count
       ∧ (count ≤ 0 → l = [])).
Proof.
  intros Hlos Hshown Hcases.
  assert (rounds_of count = Z.to_nat (Z.min (Z.max count 0) 100)) as Hrounds
    by (unfold rounds_of, range_len, MAX_CALCULATIONS; lia).
  split.
  { destruct (calculate_possible_imeis_spec count g Hshown)
      as (l & g' & H & Hlen & _).
    exists l, g'. split; [done|]. by rewrite <- Hrounds. }
  assert (returns (py_str (py_get d "pci" (PStr "0")))
    ∧ returns (py_str (py_get d "ci" (PStr "0")))) as [Hps Hcs].
  { destruct Hcases as [(_ & ? & ?)|(_ & _ & _ & _ & Hp & Hc)]; [done|].
    split; by apply py_str_of_int_text. }
  rewrite calculate_possible_imsis_unfold by done.
  destruct (decide (count ≤ 0)) as [Hneg|Hpos].
  - exists [], [], g.
    assert (rounds_of count = 0%nat) as Hr
      by (unfold rounds_of, range_len, MAX_CALCULATIONS; lia).
    rewrite <- Hrounds, Hr. cbn [imsi_loop].
    rewrite (set_listing_nil los Hlos).
    assert (slice_to (@nil string) count = []) as ->.
    { unfold slice_to. by destruct (count <? 0); rewrite take_nil. }
    done.
  - destruct Hcases as [[? _]|((m & Hm) & (n & Hn) & Hs & Ht & Hp & Hc)]; [done|].
    destruct (imsi_loop_ok m n (base_tac d) (base_pci d) (base_ci d)
      (rounds_of count) 0 [] g Hs Ht Hp Hc) as (pool & g' & Hloop & Hlen & _).
    exists pool, (slice_to (los pool) count), g'.
    rewrite Hm, Hn, Hloop, <- Hrounds. done.
Qed.

Lemma synthesis_returns_witness :
  (∃ l g', calculate_possible_imeis 250 zero_tape = Ok (l, g')
     ∧ length l = 100%nat)
  ∧ (∃ l g', calculate_possible_imsis remove_dups
               {[ "tac" := PInt 7; "pci" := PInt 21; "ci" := PStr "-4" ]}
               250 zero_tape = Ok (l, g')).
Proof.
  destruct (synthesis_returns remove_dups
    {[ "tac" := PInt 7; "pci" := PInt 21; "ci" := PStr "-4" ]} 250 zero_tape)
    as [Himei (pool & l & g' & Himsi & _)].
  - apply remove_dups_listing.
  - by vm_compute.
  - right. split; [by exists "310"|]. split; [by exists "260"|].
    split; [exists "7"; by vm_compute|]. split; [by exists 7|].
    split; [exists 21; by vm_compute|]. exists (-4). by vm_compute.
  - split; [exact Himei|]. by exists l, g'.
Defined.

(** C4 (counterexample): a pci that is not a number makes the synthesis of
    subscriber identifiers raise. *)
Lemma imsi_bad_pci_raises :
  calculate_possible_imsis remove_dups {[ "pci" := PStr "n/a" ]} 1 zero_tape
    = Raise ValueError.
Proof. by vm_compute. Qed.

(** The parser stores integers, and an integer mcc or mnc makes the
    concatenation of line 230 raise. *)
Example imsi_integer_mcc_raises :
  calculate_possible_imsis remove_dups {[ "mcc" := PInt 310 ]} 1 zero_tape
    = Raise TypeError
  ∧ calculate_possible_imsis remove_dups
      {[ "mcc" := PInt 310; "mnc" := PInt 260 ]} 1 zero_tape = Raise TypeError.
Proof. split; by vm_compute. Qed.

(** ** The check digit and the Luhn check *)

(** Numbers that pass the Luhn check, and their neighbours that do not. *)
Example luhn_valid_vectors :
  luhn_valid "490154203237518" = true
  ∧ luhn_valid "356938035643809" = true
  ∧ luhn_valid "79927398713" = true
  ∧ luhn_valid "490154203237517" = false
  ∧ luhn_valid "79927398710" = false.
Proof. repeat split; by vm_compute. Qed.

(** C1 (the code at a failing input): with the prefix "35" and a serial of
    zeros drawn, [calculate_possible_imeis 1] returns the one identifier
    350000000000009, of 15 digits; its Luhn sum is 13, so it does not pass
    the Luhn check. *)
Theorem imei_fails_luhn_check :
  calculate_possible_imeis 1 zero_tape
    = Ok (["350000000000009"], {| tape := λ _, 0%nat; cursor := 13 |})
  ∧ check_digit "35000000000000" = Ok 9
  ∧ luhn_sum (reverse (chars "350000000000009")) false = 13
  ∧ luhn_valid "350000000000009" = false.
Proof. repeat split; by vm_compute. Qed.

(** The check digit that makes the payload of a real identifier pass is not
    the one lines 261 to 270 compute for it. *)
Example check_digit_known_imei :
  check_digit "35693803564380" = Ok 5
  ∧ luhn_valid "356938035643805" = false
  ∧ luhn_valid "356938035643809" = true.
Proof. repeat split; by vm_compute. Qed.

(** C9 (as amended): the vector "356938035643809" has 15 digits, and the
    check-digit computation of lines 261 to 270 gives 6 for it, which
    yields "3569380356438096"; that number passes the Luhn check. *)
Theorem check_digit_fixed_vector :
  String.length "356938035643809" = 15%nat
  ∧ check_digit "356938035643809" = Ok 6
  ∧ "356938035643809" +:+ str_of_Z 6 = "3569380356438096"
  ∧ luhn_valid "3569380356438096" = true.
Proof. repeat split; by vm_compute. Qed.

(** C9 (counterexample): the check digit computed for "356938035643809" is
    not 7. *)
Lemma fixed_vector_check_digit_is_not_7 :
  check_digit "356938035643809" ≠ Ok 7.
Proof. by vm_compute. Qed.

(** ** The cell-id of a parsed report *)

Lemma location_of_lookup text k :
  k ≠ "location" → location_of text !! k = None.
Proof.
  intros Hk. unfold location_of. destruct (re_search cell_re text); [|done].
  by rewrite lookup_insert_ne.
Qed.

(** What the loop over [lte_params] leaves under a name of the allow-list
    is an integer, and one that [str] prints. *)
Lemma lte_lookup_int k ms cell :
  k ∈ lte_names → cell !! k = None →
  lte_lookup k ms cell = None
  ∨ ∃ v, lte_lookup k ms cell = Some (PInt v) ∧ int_shown v = true.
Proof.
  intros Hk Hcell. unfold lte_lookup. rewrite bool_decide_true by done.
  destruct (last _) as [m|]; [|by left].
  destruct (int_of_str _) as [v|e] eqn:Hv; [right|by left].
  exists v. split; [done|]. by eapply int_of_str_shown.
Qed.

(** A report with a cid gives the same arithmetic candidate as one
    without. *)
Example imsi_parsed_cid_example :
  ∃ r, parse_report_content "t" "tac: 5 pci: 7 cid: 12345" = Ok r
    ∧ cell_info r !! "cid" = Some (PInt 12345)
    ∧ math_imsi (base_mcc (cell_info r)) (base_mnc (cell_info r))
        (base_tac (cell_info r)) (base_pci (cell_info r)) (base_ci (cell_info r))
      = Ok "3102600000000000".
Proof. eexists. split; [by vm_compute|]. split; by vm_compute. Qed.

(** The whole report as device data (the import command stores it so):
    none of the keys read is a key of a report, and the candidate is the
    one of the defaults. *)
Lemma math_imsi_defaults (d : gmap string pyval) :
  d !! "mcc" = None → d !! "mnc" = None → d !! "tac" = None →
  d !! "pci" = None → d !! "ci" = None →
  math_imsi (base_mcc d) (base_mnc d) (base_tac d) (base_pci d) (base_ci d)
    = Ok "3102600000000000".
Proof.
  intros Hmcc Hmnc Htac Hpci Hci.
  unfold base_mcc, base_mnc, base_tac, base_pci, base_ci, py_get.
  rewrite Hmcc, Hmnc, Htac, Hpci, Hci. by vm_compute.
Qed.

(** The scan also reads inside a line that another rule matched. *)
Example lte_scan_inside_device_line :
  ∃ r, parse_report_content "t" "Device: mcc: 5 - hw" = Ok r
    ∧ device_info r !! "model" = Some "mcc: 5"
    ∧ cell_info r !! "mcc" = Some (PInt 5).
Proof. eexists. split; [by vm_compute|]. split; by vm_compute. Qed.

(** * Further properties *)

(** ** The check digit *)

Lemma int_of_char_digit c z :
  int_of_str (String c "") = Ok z → is_digit c = true.
Proof.
  destruct c as [[] [] [] [] [] [] [] []]; vm_compute; congruence.
Qed.

Lemma luhn_total_sum ds i total :
  Forall (λ c, is_digit c = true) ds →
  luhn_total ds i total = Ok (total + luhn_sum ds (i `mod` 2 =? 0)).
Proof.
  intros Hds. revert i total.
  induction Hds as [|c ds Hc _ IH]; intros i total; cbn [luhn_total luhn_sum].
  - f_equal. lia.
  - rewrite int_of_digit by done. cbn [mbind result_bind]. rewrite IH.
    f_equal.
    assert (((i + 1) `mod` 2 =? 0) = negb (i `mod` 2 =? 0)) as ->.
    { pose proof (Z.mod_pos_bound i 2). pose proof (Z.mod_pos_bound (i + 1) 2).
      assert ((i + 1) `mod` 2 = (i `mod` 2 + 1) `mod` 2) as Heq
        by (rewrite Zplus_mod_idemp_l; done).
      destruct (Z.eqb_spec (i `mod` 2) 0) as [Hz|Hz].
      - rewrite Heq, Hz. done.
      - assert (i `mod` 2 = 1) as Hone by lia. rewrite Heq, Hone. done. }
    destruct (i `mod` 2 =? 0); [|lia].
    replace (digit_val c * 2) with (2 * digit_val c) by lia. lia.
Qed.

Lemma luhn_total_inv ds i total t :
  luhn_total ds i total = Ok t → Forall (λ c, is_digit c = true) ds.
Proof.
  revert i total. induction ds as [|c ds IH]; intros i total; [done|].
  cbn [luhn_total]. destruct (int_of_str (String c "")) as [z|e] eqn:Hz; [|done].
  cbn [mbind result_bind]. intros H. constructor.
  - by eapply int_of_char_digit.
  - by eapply IH.
Qed.

(** The check digit of lines 261 to 270 exists exactly for the payloads
    that are made of decimal digits ([int] raises [ValueError] on any other
    character), and it is a digit from 0 to 9. *)
Theorem check_digit_returns_iff base :
  (returns (check_digit base) ↔ all_digits base = true)
  ∧ ∀ cd, check_digit base = Ok cd → 0 ≤ cd ≤ 9.
Proof.
  split; [split|].
  - intros [cd Hcd]. unfold check_digit in Hcd.
    destruct (luhn_total (chars base) 0 0) as [t|e] eqn:Ht; [|done].
    apply Forall_all_digits. by eapply luhn_total_inv.
  - intros Hds%all_digits_Forall.
    destruct (check_digit_returns base Hds) as (cd & Hcd & _). by exists cd.
  - intros cd Hcd. unfold check_digit in Hcd.
    destruct (luhn_total (chars base) 0 0) as [t|e]; [|done].
    injection Hcd as <-. pose proof (Z.mod_pos_bound (10 - t `mod` 10) 10). lia.
Qed.

Lemma luhn_sum_app l1 l2 b :
  luhn_sum (l1 ++ l2) b = luhn_sum l1 b + luhn_sum l2 (xorb b (Nat.odd (length l1))).
Proof.
  revert b. induction l1 as [|c l1 IH]; intros b; cbn [app luhn_sum length].
  - by rewrite xorb_false_r.
  - rewrite IH, Nat.odd_succ, <- Nat.negb_odd.
    by destruct b, (Nat.odd (length l1)); simpl; lia.
Qed.

Lemma luhn_sum_reverse l b :
  luhn_sum (reverse l) b =
    luhn_sum l (if Nat.even (length l) then negb b else b).
Proof.
  revert b. induction l as [|c l IH]; intros b; [done|].
  rewrite reverse_cons, luhn_sum_app, IH, length_reverse.
  cbn [luhn_sum length]. rewrite Nat.even_succ, <- Nat.negb_odd.
  destruct b, (Nat.odd (length l)); simpl; lia.
Qed.

Lemma str_of_digit cd :
  0 ≤ cd ≤ 9 → ∃ c, chars (str_of_Z cd) = [c] ∧ is_digit c = true ∧ digit_val c = cd.
Proof.
  intros Hcd.
  destruct (str_of_Z_digits cd) as (ds & Heq & Hne & Hds & Hval & Hlen); [lia|].
  rewrite Heq. clear Heq.
  destruct ds as [|c [|c' ds]]; [done| |].
  - exists c. apply Forall_cons in Hds as [Hc _].
    split; [done|]. split; [done|].
    unfold dec_value in Hval. simpl in Hval. lia.
  - exfalso. destruct Hlen as [Hl|Hl]; [done|].
    cbn [length] in Hl.
    assert (10 ^ 1 ≤ 10 ^ Z.of_nat (S (S (length ds)) - 1)); [|lia].
    apply Z.pow_le_mono_r; lia.
Qed.

(** The check digit of lines 261 to 270 is the Luhn check digit when the
    payload has an odd number of digits. For a payload of even length, such
    as the 14 digits of an equipment identifier, it is the Luhn check digit
    of the payload with one more 0 at its end: the payload, that 0 and the
    check digit make a number that passes the Luhn check. *)
Theorem check_digit_luhn_parity base cd :
  all_digits base = true → check_digit base = Ok cd →
  luhn_valid ((base +:+ odd_pad base) +:+ str_of_Z cd) = true.
Proof.
  intros Hds%all_digits_Forall Hcd.
  assert (0 ≤ cd ≤ 9) as Hrange.
  { unfold check_digit in Hcd.
    destruct (luhn_total (chars base) 0 0) as [t|e]; [|done].
    injection Hcd as <-. pose proof (Z.mod_pos_bound (10 - t `mod` 10) 10). lia. }
  unfold check_digit in Hcd. rewrite luhn_total_sum in Hcd by done.
  cbn [mbind result_bind mret result_ret] in Hcd. injection Hcd as Hcd.
  change (0 `mod` 2 =? 0) with true in Hcd. rewrite Z.add_0_l in Hcd.
  destruct (str_of_digit cd Hrange) as (c & Hc & Hcdig & Hcval).
  assert (Forall (λ c, is_digit c = true) (chars (odd_pad base))) as Hpad.
  { unfold odd_pad. destruct (Nat.odd _); [done|]. by repeat constructor. }
  assert (luhn_sum (chars (odd_pad base)) (xorb true (Nat.odd (length (chars base)))) = 0)
    as Hpad0.
  { unfold odd_pad. rewrite str_length. by destruct (Nat.odd _). }
  assert (Nat.even (length (chars base ++ chars (odd_pad base))) = false) as Hodd.
  { rewrite length_app. unfold odd_pad. rewrite str_length.
    destruct (Nat.odd (length (chars base))) eqn:Ho; simpl.
    - by rewrite Nat.add_0_r, <- Nat.negb_odd, Ho.
    - rewrite Nat.add_1_r, Nat.even_succ. by rewrite Ho. }
  unfold luhn_valid. rewrite !chars_app, Hc. apply andb_true_iff. split.
  - apply forallb_forall. intros x Hx. apply list_elem_of_In in Hx.
    assert (Forall (λ c, is_digit c = true)
      ((chars base ++ chars (odd_pad base)) ++ [c])) as Hall.
    { apply Forall_app. split; [by apply Forall_app|by constructor]. }
    rewrite Forall_forall in Hall. by apply Hall.
  - rewrite reverse_app, reverse_singleton. cbn [app luhn_sum negb].
    rewrite luhn_sum_reverse, Hodd, luhn_sum_app, Hpad0, Hcval, Z.add_0_r.
    apply Z.eqb_eq. rewrite <- Hcd.
    set (t := luhn_sum (chars base) true).
    rewrite Zplus_mod_idemp_l.
    replace (10 - t `mod` 10 + t) with (10 + (t - t `mod` 10)) by lia.
    rewrite (Z.div_mod t 10) at 1 by lia.
    replace (10 + (10 * (t `div` 10) + t `mod` 10 - t `mod` 10))
      with ((1 + t `div` 10) * 10) by lia.
    apply Z.mod_mul. lia.
Qed.

Lemma check_digit_luhn_parity_witness :
  luhn_valid "3569380356438005" = true.
Proof.
  apply (check_digit_luhn_parity "35693803564380" 5); by vm_compute.
Defined.

(** Without that 0 a payload of 14 digits and its check digit pass the
    Luhn check for some payloads and not for others. *)
Example check_digit_even_payloads :
  check_digit "35300000000000" = Ok 3 ∧ luhn_valid "353000000000003" = true
  ∧ check_digit "35000000000000" = Ok 9 ∧ luhn_valid "350000000000009" = false.
Proof. repeat split; by vm_compute. Qed.

(** ** The identifiers that are generated *)

Lemma choice_tac_db_in g : (choice tac_db g).1 ∈ tac_db.
Proof.
  unfold choice, randbelow. cbn [fst tac_db length].
  pose proof (Nat.mod_upper_bound (tape g (cursor g)) 3) as Hk.
  destruct (tape g (cursor g) `mod` 3)%nat as [|[|[|k]]]; [..|lia];
    apply (bool_decide_unpack _); by vm_compute.
Qed.

Lemma imei_step_form imeis g :
  ∃ x g', imei_step imeis g = Ok (imeis ++ [x], g')
    ∧ imei_form x ∧ String.length x = 15%nat ∧ all_digits x = true.
Proof.
  unfold imei_step.
  pose proof (choice_tac_db g) as [Htl Htd].
  pose proof (choice_tac_db_in g) as Htin.
  destruct (choice tac_db g) as [tac g1]. cbn [fst] in Htl, Htd, Htin.
  pose proof (random_digits_spec 12 g1) as [Hsl Hsd].
  destruct (random_digits 12 g1) as [serial g2]. cbn [fst] in Hsl, Hsd.
  assert (Forall (λ c, is_digit c = true) (chars (tac +:+ serial))) as Hbase.
  { rewrite chars_app. by apply Forall_app. }
  destruct (check_digit_returns _ Hbase) as (cd & Hcd & Hrange).
  rewrite Hcd. cbn [mbind result_bind mret result_ret].
  eexists _, _. split; [done|].
  destruct (str_of_Z_length cd 1) as [Hcl Hcds]; [simpl; lia|lia|].
  split; [|split].
  - exists tac, serial, cd. split; [done|]. split; [done|].
    split; [by rewrite str_length|]. split; [by apply Forall_all_digits|].
    split; [done|lia].
  - rewrite str_length, !chars_app, !length_app. lia.
  - apply Forall_all_digits. rewrite chars_app. by apply Forall_app.
Qed.

Lemma imei_loop_form rounds imeis g :
  ∃ new g', imei_loop rounds imeis g = Ok (imeis ++ new, g')
    ∧ length new = rounds
    ∧ Forall (λ x, imei_form x ∧ String.length x = 15%nat ∧ all_digits x = true) new.
Proof.
  revert imeis g. induction rounds as [|rounds IH]; intros imeis g;
    cbn [imei_loop].
  - exists [], g. by rewrite app_nil_r.
  - destruct (imei_step_form imeis g) as (x & g1 & -> & Hx).
    cbn [mbind result_bind].
    destruct (IH (imeis ++ [x]) g1) as (new & g' & -> & Hlen & Hnew).
    exists (x :: new), g'. rewrite <- app_assoc. split; [done|].
    split; [simpl; lia|by constructor].
Qed.

(** For every count that [str] prints (the log line of the function
    prints it), [calculate_possible_imeis] returns
    [min(max(count, 0), 100)] identifiers, and each one is a string of 15
    decimal digits made of one of the prefixes 35, 01 and 86, twelve more
    digits, and the check digit that lines 261 to 270 give to these 14. *)
Theorem imei_identifiers_form count g :
  int_shown count = true →
  ∃ l g', calculate_possible_imeis count g = Ok (l, g')
    ∧ length l = Z.to_nat (Z.min (Z.max count 0) 100)
    ∧ Forall (λ x, imei_form x ∧ String.length x = 15%nat ∧ all_digits x = true) l.
Proof.
  intros Hcount. rewrite calculate_possible_imeis_unfold by done.
  destruct (imei_loop_form (rounds_of count) [] g)
    as (new & g' & H & Hlen & Hnew).
  exists new, g'. split; [done|]. split; [|done].
  rewrite Hlen. unfold rounds_of, range_len, MAX_CALCULATIONS. lia.
Qed.

Lemma imei_identifiers_form_witness :
  ∃ l g', calculate_possible_imeis 3 zero_tape = Ok (l, g')
    ∧ length l = 3%nat
    ∧ Forall (λ x, imei_form x ∧ String.length x = 15%nat ∧ all_digits x = true) l.
Proof. apply (imei_identifiers_form 3 zero_tape). by vm_compute. Defined.

(** ** The arithmetic candidate *)

Lemma dec_value_zeros k ds :
  dec_value (replicate k "0"%char ++ ds) 0 = dec_value ds 0.
Proof. induction k as [|k IH]; [done|]. by rewrite <- IH. Qed.

Lemma zfill_digits_chars width z :
  0 ≤ z →
  chars (zfill width (str_of_Z z)) =
    replicate (width - length (chars (str_of_Z z))) "0"%char ++ chars (str_of_Z z).
Proof.
  intros Hz.
  destruct (str_of_Z_digits z Hz) as (ds & Heq & Hne & Hds & _).
  unfold zfill. rewrite Heq. destruct ds as [|d ds]; [done|].
  apply Forall_cons in Hds as [Hd Hds].
  rewrite !(is_char_digit _ d) by (done || by vm_compute). cbn [orb].
  by rewrite chars_str_of.
Qed.

(** When [int] accepts tac, pci and the cell-id, the ten characters that
    line 233 puts after mcc + mnc are a 0 and nine decimal digits (the
    product is reduced modulo 10^9 and then padded to ten places, so there
    is no sign even for a negative product), and read as a number they are
    the product modulo 10^9. *)
Theorem math_imsi_suffix m n tac pci ci t p c :
  py_int tac = Ok t → int_of_str pci = Ok p → int_of_str ci = Ok c →
  ∃ nine,
    math_imsi (PStr m) (PStr n) tac pci ci = Ok ((m +:+ n) +:+ "0" +:+ nine)
    ∧ String.length nine = 9%nat ∧ all_digits nine = true
    ∧ int_of_str ("0" +:+ nine) = Ok ((t * p * c) `mod` 1000000000).
Proof.
  intros Ht Hp Hc. rewrite (math_imsi_ok _ _ _ _ _ t p c) by done.
  set (v := (t * p * c) `mod` 1000000000).
  assert (0 ≤ v < 10 ^ Z.of_nat 9) as Hv.
  { pose proof (Z.mod_pos_bound (t * p * c) 1000000000). simpl. lia. }
  destruct (str_of_Z_length v 9 Hv) as [Hlen Hds]; [lia|].
  destruct (str_of_Z_digits v) as (ds & Heq & Hne & _ & Hval & _); [lia|].
  pose proof (zfill_digits_chars 10 v) as Hz. rewrite Heq in Hz, Hlen, Hds.
  replace (10 - length ds)%nat with (S (9 - length ds)) in Hz by lia.
  cbn [replicate app] in Hz.
  exists (str_of (replicate (9 - length ds) "0"%char ++ ds)).
  assert (zfill 10 (str_of_Z v) =
    "0" +:+ str_of (replicate (9 - length ds) "0"%char ++ ds)) as Hzf.
  { apply chars_inj. rewrite Hz by lia. by rewrite chars_app, chars_str_of. }
  assert (Forall (λ c, is_digit c = true)
    (replicate (9 - length ds) "0"%char ++ ds)) as Hall.
  { apply Forall_app. split; [|done]. apply Forall_replicate. by vm_compute. }
  split; [by rewrite Hzf|]. split; [|split].
  - rewrite str_length, chars_str_of, length_app, length_replicate. lia.
  - apply Forall_all_digits. by rewrite chars_str_of.
  - apply int_of_str_Ok. rewrite chars_app, chars_str_of.
    change (chars "0") with (replicate 1 "0"%char). split.
    + rewrite int_literal_digits.
      * by rewrite dec_value_zeros, dec_value_zeros, Hval.
      * done.
      * apply Forall_app. split; [by repeat constructor|done].
    + etrans; [apply count_digits_le|].
      rewrite !length_app, !length_replicate.
      unfold int_max_str_digits. lia.
Qed.

Lemma math_imsi_suffix_witness :
  ∃ nine,
    math_imsi (PStr "310") (PStr "260") (PInt (-5)) "7" "123456789"
      = Ok (("310" +:+ "260") +:+ "0" +:+ nine)
    ∧ int_of_str ("0" +:+ nine) = Ok ((-5 * 7 * 123456789) `mod` 1000000000).
Proof.
  destruct (math_imsi_suffix "310" "260" (PInt (-5)) "7" "123456789"
    (-5) 7 123456789) as (nine & Hm & _ & _ & Hi); [by vm_compute..|].
  exists nine. split; [exact Hm|exact Hi].
Defined.

(** ** The pool of candidates *)

Lemma imsi_step_explicit m n tac pci ci i acc g t p c :
  returns (py_str tac) →
  py_int tac = Ok t → int_of_str pci = Ok p → int_of_str ci = Ok c →
  ∃ a r g', imsi_step (PStr m) (PStr n) tac pci ci i acc g
    = Ok (acc ++ [a; math_candidate m n t p c; r], g').
Proof.
  intros [ts Hts] Ht Hp Hc.
  rewrite (imsi_step_strings _ _ _ _ _ _ _ _ ts) by done.
  rewrite (math_imsi_ok _ _ _ _ _ t p c) by done.
  destruct (random_digits 10 g) as [ds g']. simpl. by eexists _, _, _.
Qed.

(** The pool after [rounds] rounds: the arithmetic candidate, the same in
    every round, and two more candidates a round. *)
Lemma imsi_loop_pool m n tac pci ci t p c rounds i acc g :
  returns (py_str tac) →
  py_int tac = Ok t → int_of_str pci = Ok p → int_of_str ci = Ok c →
  ∃ pool others g',
    imsi_loop (PStr m) (PStr n) tac pci ci rounds i acc g = Ok (acc ++ pool, g')
    ∧ length others = (2 * rounds)%nat
    ∧ (∀ x, x ∈ pool → x ∈ math_candidate m n t p c :: others)
    ∧ ((1 ≤ rounds)%nat → math_candidate m n t p c ∈ pool).
Proof.
  intros Hs Ht Hp Hc. revert i acc g.
  induction rounds as [|rounds IH]; intros i acc g; cbn [imsi_loop].
  - exists [], [], g. rewrite app_nil_r. split; [done|]. split; [done|].
    split; [|lia]. intros x Hx. by apply elem_of_nil in Hx.
  - destruct (imsi_step_explicit m n tac pci ci i acc g t p c Hs Ht Hp Hc)
      as (a & r & g1 & ->).
    cbn [mbind result_bind].
    destruct (IH (i + 1) (acc ++ [a; math_candidate m n t p c; r]) g1)
      as (pool & others & g' & -> & Hlen & Hin & _).
    exists ([a; math_candidate m n t p c; r] ++ pool), (a :: r :: others), g'.
    rewrite app_assoc. split; [done|]. split; [simpl; lia|]. split.
    + intros x Hx. apply elem_of_app in Hx as [Hx|Hx].
      * apply elem_of_cons in Hx as [->|Hx]; [right; left|].
        apply elem_of_cons in Hx as [->|Hx]; [left|].
        apply elem_of_cons in Hx as [->|Hx]; [right; right; left|].
        by apply elem_of_nil in Hx.
      * apply Hin in Hx. apply elem_of_cons in Hx as [->|Hx]; [left|].
        by do 3 right.
    + intros _. apply elem_of_app. left. right. left.
Qed.

(** When the inputs are well formed and the count is one that [str]
    prints, the list that [calculate_possible_imsis] returns has no
    repetition; it is not empty when the count is 1 or more; and it has at
    most two elements a round and one more, so at most 201 however large
    the count is: the arithmetic candidate is the same in every round. *)
Theorem imsi_result_distinct_bounded los d count g :
  set_listing los → int_shown count = true → imsi_inputs_ok d →
  ∃ l g', calculate_possible_imsis los d count g = Ok (l, g')
    ∧ NoDup l
    ∧ (length l ≤ 2 * Z.to_nat (Z.min (Z.max count 0) 100) + 1)%nat
    ∧ (length l ≤ 201)%nat
    ∧ (1 ≤ count → (1 ≤ length l)%nat).
Proof.
  intros Hlos Hshown ((m & Hm) & (n & Hn) & Hs & [t Ht] & [p Hp] & [c Hc]).
  destruct (imsi_loop_pool m n (base_tac d) (base_pci d) (base_ci d) t p c
    (rounds_of count) 0 [] g Hs Ht Hp Hc)
    as (pool & others & g' & Hloop & Hlen & Hin & Hmath).
  exists (slice_to (los pool) count), g'.
  rewrite (calculate_possible_imsis_strings _ _ _ _ m n)
    by (done || by eexists).
  rewrite Hloop. split; [done|].
  assert (rounds_of count = Z.to_nat (Z.min (Z.max count 0) 100)) as Hrounds
    by (unfold rounds_of, range_len, MAX_CALCULATIONS; lia).
  assert (NoDup (slice_to (los pool) count)) as Hnd.
  { unfold slice_to. destruct (count <? 0);
      (eapply sublist_NoDup; [apply Hlos|apply sublist_take]). }
  assert (length (slice_to (los pool) count) ≤ 2 * rounds_of count + 1)%nat as Hle.
  { transitivity (length (math_candidate m n t p c :: others));
      [|simpl; lia].
    apply submseteq_length, NoDup_submseteq; [done|].
    intros x Hx%slice_to_elem. apply (set_listing_elem _ _ _ Hlos) in Hx.
    by apply Hin. }
  split; [done|]. split; [by rewrite <- Hrounds|]. split; [lia|].
  intros Hcount.
  assert (math_candidate m n t p c ∈ los pool) as Hl.
  { apply (Hlos pool), Hmath. lia. }
  unfold slice_to. assert ((count <? 0) = false) as -> by lia.
  destruct (los pool) as [|x l]; [by apply elem_of_nil in Hl|].
  destruct (Z.to_nat count) as [|k] eqn:Hk; [lia|]. simpl. lia.
Qed.

Lemma imsi_result_distinct_bounded_witness :
  ∃ l g', calculate_possible_imsis remove_dups
            {[ "tac" := PInt 7; "pci" := PInt 21; "ci" := PStr "4" ]}
            5000 zero_tape = Ok (l, g')
    ∧ NoDup l ∧ (length l ≤ 201)%nat.
Proof.
  destruct (imsi_result_distinct_bounded remove_dups
    {[ "tac" := PInt 7; "pci" := PInt 21; "ci" := PStr "4" ]} 5000 zero_tape)
    as (l & g' & Hcalc & Hnd & _ & Hlen & _).
  - apply remove_dups_listing.
  - by vm_compute.
  - split; [by exists "310"|]. split; [by exists "260"|].
    split; [exists "7"; by vm_compute|]. split; [by exists 7|].
    split; [exists 21; by vm_compute|]. exists 4. by vm_compute.
  - exists l, g'. split; [exact Hcalc|]. split; [exact Hnd|exact Hlen].
Defined.

(** ** Device data without cell parameters *)

Lemma report_keys_lookup (d : gmap string pyval) k :
  dom d = list_to_set report_keys → k ∉ report_keys → d !! k = None.
Proof.
  intros Hdom Hk. apply not_elem_of_dom. rewrite Hdom.
  by rewrite elem_of_list_to_set.
Qed.

(** Device data that has the keys of a parsed report and no other, as the
    data of an imported report has, holds none of the keys that
    [calculate_possible_imsis] reads: the synthesis returns for every
    count that [str] prints, every candidate starts with the default
    "310260", and the arithmetic candidate is "3102600000000000", whatever
    the report holds. *)
Theorem imsi_of_report_keys los d count g :
  set_listing los → int_shown count = true →
  dom d = list_to_set report_keys →
  math_imsi (base_mcc d) (base_mnc d) (base_tac d) (base_pci d) (base_ci d)
    = Ok "3102600000000000"
  ∧ ∃ l g', calculate_possible_imsis los d count g = Ok (l, g')
      ∧ ∀ x, x ∈ l → str_take 6 x = "310260".
Proof.
  intros Hlos Hshown Hdom.
  assert (∀ k, k ∉ report_keys → d !! k = None) as Hnone
    by (intros k; by apply report_keys_lookup).
  assert (d !! "mcc" = None) as Hmcc
    by (apply Hnone, (bool_decide_unpack _); by vm_compute).
  assert (d !! "mnc" = None) as Hmnc
    by (apply Hnone, (bool_decide_unpack _); by vm_compute).
  assert (d !! "tac" = None) as Htac
    by (apply Hnone, (bool_decide_unpack _); by vm_compute).
  assert (d !! "pci" = None) as Hpci
    by (apply Hnone, (bool_decide_unpack _); by vm_compute).
  assert (d !! "ci" = None) as Hci
    by (apply Hnone, (bool_decide_unpack _); by vm_compute).
  split; [by apply math_imsi_defaults|].
  assert (base_mcc d = PStr "310") as Hm by (unfold base_mcc, py_get; by rewrite Hmcc).
  assert (base_mnc d = PStr "260") as Hn by (unfold base_mnc, py_get; by rewrite Hmnc).
  assert (returns (int_of_str (base_pci d))) as Hp.
  { unfold base_pci, py_get. rewrite Hpci. by exists 0. }
  assert (returns (int_of_str (base_ci d))) as Hc.
  { unfold base_ci, py_get. rewrite Hci. by exists 0. }
  destruct (imsi_loop_ok "310" "260" (base_tac d) (base_pci d) (base_ci d)
    (rounds_of count) 0 [] g) as (pool & g' & Hloop & _ & Hpool); [| |done|done|].
  { unfold base_tac, py_get. rewrite Htac. by exists "0000". }
  { unfold base_tac, py_get. rewrite Htac. by exists 0. }
  exists (slice_to (los pool) count), g'.
  rewrite (calculate_possible_imsis_strings _ _ _ _ "310" "260") by done.
  rewrite Hloop. split; [done|].
  intros x Hx%slice_to_elem. apply (set_listing_elem _ _ _ Hlos) in Hx.
  rewrite Forall_forall in Hpool.
  apply (imsi_shape_prefix "310" "260"), Hpool, Hx.
Qed.

Lemma imsi_of_report_keys_witness :
  ∃ l g', calculate_possible_imsis remove_dups
            (list_to_map ((λ k, (k, PStr "")) <$> report_keys)) 3 zero_tape
            = Ok (l, g')
    ∧ ∀ x, x ∈ l → str_take 6 x = "310260".
Proof.
  destruct (imsi_of_report_keys remove_dups
    (list_to_map ((λ k, (k, PStr "")) <$> report_keys)) 3 zero_tape)
    as (_ & l & g' & H).
  - apply remove_dups_listing.
  - by vm_compute.
  - rewrite dom_list_to_map_L, <- list_fmap_compose.
    apply set_eq. intros k. rewrite !elem_of_list_to_set.
    by rewrite list_fmap_id.
  - exists l, g'. exact H.
Defined.

(** ** What the groups of the patterns hold *)

Lemma run_plus_group p q re s start caps r :
  q = Plus ∨ q = LazyPlus →
  run (Open :: Cls p q :: Close :: re) s start caps = Some r →
  ∃ g s' start', g ≠ "" ∧ Forall (λ c, p c = true) (chars g)
    ∧ run re s' start' (caps ++ [g]) = Some r.
Proof.
  intros Hq. cbn [run].
  assert (∀ c l s3 (H : run re s3 (c :: l ++ s3)
      (caps ++ [str_of (take (length (c :: l ++ s3) - length s3) (c :: l ++ s3))])
      = Some r),
    p c = true → Forall (λ c, p c = true) l →
    ∃ g s' start', g ≠ "" ∧ Forall (λ c, p c = true) (chars g)
      ∧ run re s' start' (caps ++ [g]) = Some r) as Hshape.
  { intros c l s3 H Hc Hl.
    eexists _, _, _. split; [|split; [|exact H]].
    - replace (take _ _) with (c :: l)
        by (symmetry; apply (take_consumed (c :: l) s3)). done.
    - rewrite chars_str_of.
      replace (take _ _) with (c :: l)
        by (symmetry; apply (take_consumed (c :: l) s3)).
      by constructor. }
  destruct Hq as [-> | ->]; cbn [run].
  - intros (c & s2 & -> & Hc & H)%one_inv.
    apply greedy_inv in H as (l & s3 & -> & Hl & H). by eapply Hshape.
  - intros (c & s2 & -> & Hc & H)%one_inv.
    apply lazy_inv in H as (l & s3 & -> & Hl & H). by eapply Hshape.
Qed.

Lemma re_search_groups (P : list string → Prop) re :
  (∀ s rest m, match_at re s = Some (rest, m) → P m) →
  ∀ s m, re_search re s = Some m → P m.
Proof.
  intros HP s. induction s as [|c s IH]; intros m; cbn [re_search].
  - destruct (match_at re []) as [[rest m']|] eqn:Hm; [|done].
    intros [= <-]. eauto.
  - destruct (match_at re (c :: s)) as [[rest m']|] eqn:Hm; [|by apply IH].
    intros [= <-]. eauto.
Qed.

Lemma digits_text g :
  g ≠ "" → Forall (λ c, is_digit c = true) (chars g) → digit_text g.
Proof. intros Hne Hds. split; [done|]. by apply Forall_all_digits. Qed.

Lemma wifi_re_fields s rest m :
  match_at wifi_re s = Some (rest, m) → wifi_fields m.
Proof.
  unfold match_at. intros H.
  let re := eval cbv [wifi_re lit chars list_ascii_of_string
    fmap list_fmap app] in wifi_re in change wifi_re with re in H.
  skip_cls H.
  apply run_plus_group in H as (a & ? & ? & Ha & _ & H); [|by right].
  skip_cls H.
  apply run_signed_group in H as (b & ? & ? & Hb & H). skip_cls H.
  apply run_plus_group in H as (c & ? & ? & Hc & Hcd & H); [|by left].
  injection H as _ <-. exists a, b, c. split; [done|]. split; [done|].
  split; [done|]. by apply digits_text.
Qed.

Lemma sim_re_fields s rest m :
  match_at sim_re s = Some (rest, m) →
  ∃ op code, m = [op; code] ∧ word_text op ∧ digit_text code.
Proof.
  unfold match_at. intros H.
  let re := eval cbv [sim_re lit chars list_ascii_of_string
    fmap list_fmap app] in sim_re in change sim_re with re in H.
  skip_cls H.
  apply run_plus_group in H as (op & ? & ? & Hop & Hopw & H); [|by left].
  skip_cls H.
  apply run_plus_group in H as (code & ? & ? & Hc & Hcd & H); [|by left].
  skip_cls H. injection H as _ <-. exists op, code.
  split; [done|]. split; [done|]. by apply digits_text.
Qed.

Lemma device_re_fields s rest m :
  match_at device_re s = Some (rest, m) →
  ∃ model hw, m = [model; hw] ∧ line_text model ∧ line_text hw.
Proof.
  unfold match_at. intros H.
  let re := eval cbv [device_re lit chars list_ascii_of_string
    fmap list_fmap app] in device_re in change device_re with re in H.
  skip_cls H.
  apply run_plus_group in H as (model & ? & ? & Hm & Hml & H); [|by right].
  skip_cls H.
  apply run_plus_group in H as (hw & ? & ? & Hh & Hhl & H); [|by left].
  injection H as _ <-. by exists model, hw.
Qed.

Lemma android_re_fields s rest m :
  match_at android_re s = Some (rest, m) → ∃ v, m = [v] ∧ line_text v.
Proof.
  unfold match_at. intros H.
  let re := eval cbv [android_re lit chars list_ascii_of_string
    fmap list_fmap app] in android_re in change android_re with re in H.
  skip_cls H.
  apply run_plus_group in H as (v & ? & ? & Hv & Hvl & H); [|by right].
  skip_cls H. injection H as _ <-. by exists v.
Qed.

Lemma cell_re_fields s rest m :
  match_at cell_re s = Some (rest, m) → ∃ v, m = [v] ∧ line_text v.
Proof.
  unfold match_at. intros H.
  let re := eval cbv [cell_re lit chars list_ascii_of_string
    fmap list_fmap app] in cell_re in change cell_re with re in H.
  skip_cls H.
  apply run_plus_group in H as (v & ? & ? & Hv & Hvl & H); [|by left].
  injection H as _ <-. by exists v.
Qed.

(** ** The shape of a parsed report *)

(** Every entry of the [cell_info] of a parsed report is either the cell
    location, under "location", a string of one character or more without a
    line feed, or an integer under one of the twelve names of the
    allow-list; the names are stored in lower case. The text is one that
    the parser accepts. *)
Theorem parsed_cell_info_schema now content :
  literals_sized content = true →
  ∃ r, parse_report_content now content = Ok r
    ∧ ∀ k v, cell_info r !! k = Some v →
        (k = "location" ∧ ∃ s, v = PStr s ∧ line_text s)
        ∨ (k ∈ lte_names ∧ ∃ z, v = PInt z).
Proof.
  intros Hsized.
  destruct (parse_report_content_spec now content Hsized)
    as (nw & cell & _ & _ & Hcell & ->).
  eexists. split; [done|]. cbn [cell_info]. intros k v. rewrite Hcell.
  assert (∀ v, location_of (chars content) !! k = Some v →
    k = "location" ∧ ∃ s, v = PStr s ∧ line_text s) as Hloc.
  { intros v'. unfold location_of.
    destruct (re_search cell_re (chars content)) as [m|] eqn:Hm; [|done].
    apply (re_search_groups _ _ cell_re_fields) in Hm as (s & -> & Hs).
    destruct (decide (k = "location")) as [->|Hne].
    - rewrite lookup_insert_eq. intros [= <-]. split; [done|]. by exists s.
    - by rewrite lookup_insert_ne. }
  unfold lte_lookup. case_bool_decide as Hk; [|intros H; left; by apply Hloc].
  destruct (last _) as [m|].
  - destruct (int_of_str _) as [z|e]; [|done].
    intros [= <-]. right. split; [done|]. by exists z.
  - intros H. apply Hloc in H as [-> _]. exfalso. revert Hk.
    apply (bool_decide_unpack _). by vm_compute.
Qed.

Lemma parsed_cell_info_schema_witness :
  ∃ r, parse_report_content "t" "-- getCellLocation = [5,7] Band: 3" = Ok r
    ∧ ∀ k v, cell_info r !! k = Some v →
        (k = "location" ∧ ∃ s, v = PStr s ∧ line_text s)
        ∨ (k ∈ lte_names ∧ ∃ z, v = PInt z).
Proof.
  apply (parsed_cell_info_schema "t" "-- getCellLocation = [5,7] Band: 3").
  by vm_compute.
Defined.

Lemma dec_value_nonneg ds acc :
  Forall (λ c, is_digit c = true) ds → 0 ≤ acc → 0 ≤ dec_value ds acc.
Proof.
  intros Hds. revert acc. unfold dec_value.
  induction Hds as [|c ds Hc _ IH]; intros acc Hacc; [done|].
  cbn [foldl]. apply IH. apply is_digit_code in Hc. unfold digit_val. lia.
Qed.

Lemma int_of_digit_text g z :
  digit_text g → int_of_str g = Ok z → 0 ≤ z.
Proof.
  intros [Hne Hds%all_digits_Forall] [Hlit _]%int_of_str_Ok.
  rewrite int_literal_digits in Hlit;
    [|intros Hnil; by apply Hne, chars_inj|done].
  injection Hlit as <-. by apply dec_value_nonneg.
Qed.

Lemma digit_text_signed g : digit_text g → signed_digits (chars g).
Proof.
  intros [Hne Hds%all_digits_Forall]. exists [], (chars g).
  split; [done|]. split; [by left|]. split; [|done].
  intros Hnil. by apply Hne, chars_inj.
Qed.

Lemma parse_wifi_entries sections nets :
  Forall wifi_fields sections → forallb wifi_sized sections = true →
  ∃ new, parse_wifi sections nets = Ok (nets ++ new)
    ∧ Forall2 wifi_entry sections new
    ∧ Forall (λ n, ssid n ≠ "" ∧ 0 ≤ channel n) new.
Proof.
  intros H. revert nets.
  induction H as [|m sections (a & b & c & -> & Ha & Hb & Hc) _ IH];
    intros nets; cbn [parse_wifi forallb].
  - exists []. by rewrite app_nil_r.
  - unfold wifi_sized.
    change (group [a; b; c] 1) with a. change (group [a; b; c] 2) with b.
    change (group [a; b; c] 3) with c.
    intros [[Hbs Hcs]%andb_true_iff Hrest]%andb_true_iff.
    destruct (int_of_str_signed b Hb Hbs) as [r Hr].
    destruct (int_of_str_signed c (digit_text_signed c Hc) Hcs) as [ch Hch].
    rewrite Hr. cbn [mbind result_bind]. rewrite Hch. cbn [mbind result_bind].
    destruct (IH (nets ++ [{| ssid := a; rssi := r; channel := ch |}]) Hrest)
      as (new & -> & Hnew & Hok).
    exists ({| ssid := a; rssi := r; channel := ch |} :: new).
    rewrite <- app_assoc. split; [done|]. split.
    + constructor; [|done]. by repeat split.
    + constructor; [|done]. split; [done|]. by eapply int_of_digit_text.
Qed.

(** The networks of a parsed report are the matches of the WiFi pattern,
    one network a match and in the order of the text: the name is the first
    group, the signal and the channel are the numbers that the second and
    the third group spell. No name is empty and no channel is negative.
    The text is one that the parser accepts. *)
Theorem parsed_networks now content :
  literals_sized content = true →
  ∃ r, parse_report_content now content = Ok r
    ∧ Forall2 wifi_entry (re_findall wifi_re (chars content))
        (networks (wifi_info r))
    ∧ Forall (λ n, ssid n ≠ "" ∧ 0 ≤ channel n) (networks (wifi_info r)).
Proof.
  intros Hsized.
  destruct (parse_report_content_spec now content Hsized)
    as (nw & cell & Hnw & _ & _ & ->).
  destruct (parse_wifi_entries (re_findall wifi_re (chars content)) [])
    as (new & Hnew & Hrel & Hok).
  { apply re_findall_from_Forall, wifi_re_fields. }
  { by apply andb_true_iff in Hsized as [? _]. }
  rewrite Hnew in Hnw. injection Hnw as <-.
  eexists. split; [done|]. by cbn [wifi_info networks].
Qed.

Lemma parsed_networks_witness :
  ∃ r, parse_report_content "t"
         ("SSID: home" +:+ String "010" " RSSI: -61 x channel: 11") = Ok r
    ∧ networks (wifi_info r) = [{| ssid := "home"; rssi := -61; channel := 11 |}]
    ∧ Forall (λ n, ssid n ≠ "" ∧ 0 ≤ channel n) (networks (wifi_info r)).
Proof.
  destruct (parsed_networks "t"
    ("SSID: home" +:+ String "010" " RSSI: -61 x channel: 11"))
    as (r & Hr & _ & Hok); [by vm_compute|].
  exists r. split; [exact Hr|]. split; [|exact Hok].
  vm_compute in Hr. by injection Hr as <-.
Defined.

(** The [sim_info] of a parsed report is empty, or it holds exactly the
    two keys "operator" and "mccmnc": the operator is one or more word
    characters, and the code is one or more decimal digits. The text is
    one that the parser accepts. *)
Theorem parsed_sim_info now content :
  literals_sized content = true →
  ∃ r, parse_report_content now content = Ok r
    ∧ (sim_info r = ∅
       ∨ ∃ op code, sim_info r = <["mccmnc" := code]> (<["operator" := op]> ∅)
           ∧ word_text op ∧ digit_text code).
Proof.
  intros Hsized.
  destruct (parse_report_content_spec now content Hsized)
    as (nw & cell & _ & _ & _ & ->).
  eexists. split; [done|]. cbn [sim_info]. unfold sim_of.
  destruct (re_search sim_re (chars content)) as [m|] eqn:Hm; [|by left].
  apply (re_search_groups _ _ sim_re_fields) in Hm as (op & code & -> & Hop & Hc).
  right. by exists op, code.
Qed.

Lemma parsed_sim_info_witness :
  ∃ r, parse_report_content "t" "SIM(tm): Carrier, 310260, x" = Ok r
    ∧ (sim_info r = ∅
       ∨ ∃ op code, sim_info r = <["mccmnc" := code]> (<["operator" := op]> ∅)
           ∧ word_text op ∧ digit_text code).
Proof.
  apply (parsed_sim_info "t" "SIM(tm): Carrier, 310260, x"). by vm_compute.
Defined.

(** The [device_info] of a parsed report holds no other keys than "model",
    "hardware" and "android_version"; each value is one character or more
    of one line; and the model is there exactly when the hardware is. The
    text is one that the parser accepts. *)
Theorem parsed_device_info now content :
  literals_sized content = true →
  ∃ r, parse_report_content now content = Ok r
    ∧ (∀ k v, device_info r !! k = Some v →
         k ∈ ["model"; "hardware"; "android_version"] ∧ line_text v)
    ∧ (is_Some (device_info r !! "model") ↔ is_Some (device_info r !! "hardware")).
Proof.
  intros Hsized.
  destruct (parse_report_content_spec now content Hsized)
    as (nw & cell & _ & _ & _ & ->).
  eexists. split; [done|]. cbn [device_info]. unfold device_of.
  destruct (re_search device_re (chars content)) as [m|] eqn:Hm;
    destruct (re_search android_re (chars content)) as [m'|] eqn:Hm'.
  - apply (re_search_groups _ _ device_re_fields) in Hm as (model & hw & -> & Hmo & Hhw).
    apply (re_search_groups _ _ android_re_fields) in Hm' as (v' & -> & Hv').
    change (group [model; hw] 1) with model. change (group [model; hw] 2) with hw.
    change (group [v'] 1) with v'. split.
    + intros k v Hk. apply lookup_insert_Some in Hk as [[<- <-]|[_ Hk]].
      { split; [|done]. do 2 right. left. }
      apply lookup_insert_Some in Hk as [[<- <-]|[_ Hk]].
      { split; [|done]. right. left. }
      apply lookup_insert_Some in Hk as [[<- <-]|[_ Hk]]; [|done].
      split; [left|done].
    + rewrite !lookup_insert_ne, lookup_insert_eq, lookup_insert_ne,
        lookup_insert_eq by done. split; by eexists.
  - apply (re_search_groups _ _ device_re_fields) in Hm as (model & hw & -> & Hmo & Hhw).
    change (group [model; hw] 1) with model. change (group [model; hw] 2) with hw.
    split.
    + intros k v Hk.
      apply lookup_insert_Some in Hk as [[<- <-]|[_ Hk]].
      { split; [|done]. right. left. }
      apply lookup_insert_Some in Hk as [[<- <-]|[_ Hk]]; [|done].
      split; [left|done].
    + rewrite lookup_insert_eq, lookup_insert_ne, lookup_insert_eq by done.
      split; by eexists.
  - apply (re_search_groups _ _ android_re_fields) in Hm' as (v' & -> & Hv').
    change (group [v'] 1) with v'. split.
    + intros k v Hk. apply lookup_insert_Some in Hk as [[<- <-]|[_ Hk]]; [|done].
      split; [|done]. do 2 right. left.
    + rewrite !lookup_insert_ne, !lookup_empty by done.
      split; intros [? ?]; done.
  - split; [done|]. rewrite !lookup_empty. split; intros [? ?]; done.
Qed.

Lemma parsed_device_info_witness :
  ∃ r, parse_report_content "t" "Device: Pixel 7 - panther" = Ok r
    ∧ (∀ k v, device_info r !! k = Some v →
         k ∈ ["model"; "hardware"; "android_version"] ∧ line_text v)
    ∧ (is_Some (device_info r !! "model") ↔ is_Some (device_info r !! "hardware")).
Proof.
  apply (parsed_device_info "t" "Device: Pixel 7 - panther"). by vm_compute.
Defined.

(** ** The registry of devices *)

Lemma Device_update_data {V time} (self : Device V time) new_data now :
  data (Device_update self new_data now) = new_data ∪ data self.
Proof.
  cbn [Device_update data].
  apply (map_fold_weak_ind (λ r m, r = m ∪ data self)).
  - by rewrite (left_id_L ∅ (∪)).
  - intros i x m r _ ->. by rewrite insert_union_l.
Qed.

Lemma od_get_set_eq {A} key (v : A) od : od_get key (od_set key v od) = Some v.
Proof.
  induction od as [|[k x] od IH]; cbn [od_set od_get].
  - by rewrite decide_True.
  - destruct (decide (k = key)) as [->|Hne]; cbn [od_get].
    + by rewrite decide_True.
    + by rewrite decide_False.
Qed.

Lemma od_get_set_ne {A} key other (v : A) od :
  key ≠ other → od_get other (od_set key v od) = od_get other od.
Proof.
  intros Hne. induction od as [|[k x] od IH]; cbn [od_set od_get].
  - by rewrite decide_False.
  - destruct (decide (k = key)) as [Heq|Hk]; cbn [od_get].
    + subst k. by rewrite !decide_False.
    + by rewrite IH.
Qed.

Lemma od_get_None {A} key (od : list (string * A)) :
  od_get key od = None ↔ key ∉ od.*1.
Proof.
  induction od as [|[k x] od IH]; cbn [od_get].
  - split; [intros _; apply not_elem_of_nil|done].
  - rewrite fmap_cons, not_elem_of_cons. cbn [fst].
    destruct (decide (k = key)) as [->|Hne]; [split; [done|by intros [? _]]|].
    rewrite IH. split; [by intros ?; split|by intros [_ ?]].
Qed.

Lemma od_get_Some_elem {A} key (v : A) od :
  od_get key od = Some v → (key, v) ∈ od.
Proof.
  induction od as [|[k x] od IH]; cbn [od_get]; [done|].
  destruct (decide (k = key)) as [->|Hne].
  - intros [= ->]. left.
  - intros H. right. by apply IH.
Qed.

Lemma od_set_keys {A} key (v : A) od :
  (od_set key v od).*1 =
    match od_get key od with
    | Some _ => od.*1
    | None => od.*1 ++ [key]
    end.
Proof.
  induction od as [|[k x] od IH]; cbn [od_set od_get]; [done|].
  destruct (decide (k = key)) as [->|Hne]; [done|].
  rewrite !fmap_cons, IH. by destruct (od_get key od).
Qed.

Lemma od_set_Forall {A} (P : string * A → Prop) key v od :
  Forall P od → P (key, v) → Forall P (od_set key v od).
Proof.
  intros Hod Hv. induction Hod as [|[k x] od Hx Hod IH]; cbn [od_set].
  - by constructor.
  - destruct (decide (k = key)) as [->|Hne]; by constructor.
Qed.

(** After [add_device], the device is found under its identifier, and the
    data found holds every entry of the device added. A new identifier
    stores the device as it is. For an identifier that is there already,
    the stored device keeps its type, its first time and its location
    history (the points of the device added are not taken over); its data
    are the new entries over the old ones, it is seen once more, and now. *)
Theorem add_device_stored {V time} (devices : list (string * Device V time))
    (device : Device V time) (now : time) :
  ∃ stored,
    get_device (add_device devices device now) (dev_id device) = Some stored
    ∧ (∀ k v, data device !! k = Some v → data stored !! k = Some v)
    ∧ match get_device devices (dev_id device) with
      | None => stored = device
      | Some existing =>
          data stored = data device ∪ data existing
          ∧ times_seen stored = times_seen existing + 1
          ∧ last_seen stored = now
          ∧ dev_id stored = dev_id existing
          ∧ device_type stored = device_type existing
          ∧ first_seen stored = first_seen existing
          ∧ location_history stored = location_history existing
      end.
Proof.
  unfold get_device, add_device.
  destruct (od_get (dev_id device) devices) as [existing|] eqn:Hget.
  - exists (Device_update existing (data device) now).
    split; [apply od_get_set_eq|]. split; [|by rewrite Device_update_data].
    intros k v Hk. rewrite Device_update_data. by apply lookup_union_Some_l.
  - exists device. split; [apply od_get_set_eq|]. done.
Qed.

(** [add_device] leaves every other device as it was and keeps the order of
    the registry: the identifiers are the same for one that was there, and
    the new one comes last otherwise. *)
Theorem add_device_others {V time} (devices : list (string * Device V time))
    (device : Device V time) (now : time) :
  (∀ other, other ≠ dev_id device →
     get_device (add_device devices device now) other = get_device devices other)
  ∧ (add_device devices device now).*1 =
      match get_device devices (dev_id device) with
      | Some _ => devices.*1
      | None => devices.*1 ++ [dev_id device]
      end.
Proof.
  unfold get_device, add_device. split.
  - intros other Hne.
    destruct (od_get (dev_id device) devices); by apply od_get_set_ne.
  - destruct (od_get (dev_id device) devices) as [existing|] eqn:Hget;
      by rewrite od_set_keys, Hget.
Qed.

(** A registry in which each device is stored once and under its own
    identifier stays so under [add_device]; what [get_device] finds under
    an identifier then carries that identifier. *)
Theorem add_device_well_keyed {V time} (devices : list (string * Device V time))
    (device : Device V time) (now : time) :
  well_keyed devices →
  well_keyed (add_device devices device now)
  ∧ ∀ j d, get_device (add_device devices device now) j = Some d → dev_id d = j.
Proof.
  intros [Hnd Hkeys].
  assert (well_keyed (add_device devices device now)) as Hwk.
  { split.
    - destruct (add_device_others devices device now) as [_ ->].
      unfold get_device.
      destruct (od_get (dev_id device) devices) eqn:Hget; [done|].
      apply NoDup_app. split; [done|]. split; [|apply NoDup_singleton].
      intros x Hx Hin. apply list_elem_of_singleton in Hin as ->.
      by apply od_get_None in Hget.
    - unfold add_device.
      destruct (od_get (dev_id device) devices) as [existing|] eqn:Hget;
        apply od_set_Forall; try done.
      cbn [fst snd Device_update dev_id].
      apply od_get_Some_elem in Hget. rewrite Forall_forall in Hkeys.
      by apply (Hkeys _ Hget). }
  split; [done|]. intros j d Hd. destruct Hwk as [_ Hall].
  apply od_get_Some_elem in Hd. rewrite Forall_forall in Hall.
  symmetry. by apply (Hall _ Hd).
Qed.

Lemma add_device_well_keyed_witness :
  well_keyed (add_device (V := Z) (time := nat)
    [("a1", {| dev_id := "a1"; device_type := "phone"; data := {["x" := 1]};
               first_seen := 0%nat; last_seen := 0%nat; times_seen := 1;
               location_history := [] |})]
    {| dev_id := "a1"; device_type := "cell_tower"; data := {["y" := 2]};
       first_seen := 5%nat; last_seen := 5%nat; times_seen := 1;
       location_history := [] |} 7%nat).
Proof.
  apply add_device_well_keyed. split.
  - apply (bool_decide_unpack _). by vm_compute.
  - by repeat constructor.
Defined.

(** ** The bound of the count *)

Lemma calculate_possible_imsis_inv los d count g l g' :
  calculate_possible_imsis los d count g = Ok (l, g') →
  ∃ pool, l = slice_to (los pool) count ∧ (count ≤ 0 → pool = []).
Proof.
  intros (_ & pool & Hloop & ->)%calculate_possible_imsis_Ok.
  exists pool. split; [done|]. intros Hneg.
  assert (rounds_of count = 0%nat) as Hr
    by (unfold rounds_of, range_len, MAX_CALCULATIONS; lia).
  rewrite Hr in Hloop. cbn [imsi_loop] in Hloop. by injection Hloop as <- _.
Qed.

(** The count that the two methods of [Device] pass on is at most 100:
    [str] prints it unless it is a negative number of too many digits. *)
Lemma int_shown_min count :
  - 10 ^ int_max_str_digits < count →
  int_shown (Z.min count MAX_CALCULATIONS) = true.
Proof.
  rewrite int_shown_pow. intros Hcount.
  assert (10 ^ 9 ≤ 10 ^ int_max_str_digits)
    by (apply Z.pow_le_mono_r; unfold int_max_str_digits; lia).
  unfold MAX_CALCULATIONS. lia.
Qed.

(** [Device.calculate_imsis] never returns more than 100 candidates, for
    every count and every device, and [Device.calculate_imeis] returns
    [min(max(count, 0), 100)] identifiers for every count above
    [- 10 ^ 4300]: both cut the count at 100 before they call the
    synthesis, which by itself cuts only its rounds, so that the count
    printed in the log line is at most 100. *)
Theorem Device_calculate_bounds {time} los (self : Device pyval time) count g :
  set_listing los →
  (∀ l g', Device_calculate_imsis los self count g = Ok (l, g') →
     (length l ≤ 100)%nat)
  ∧ (- 10 ^ int_max_str_digits < count →
     ∃ l g', Device_calculate_imeis self count g = Ok (l, g')
       ∧ length l = Z.to_nat (Z.min (Z.max count 0) 100)).
Proof.
  intros Hlos. split.
  - intros l g' (pool & -> & Hpool)%calculate_possible_imsis_inv.
    destruct (decide (Z.min count MAX_CALCULATIONS ≤ 0)) as [Hneg|Hpos].
    + rewrite (Hpool Hneg), (set_listing_nil los Hlos). unfold slice_to.
      destruct (_ <? 0); rewrite take_nil; simpl; lia.
    + pose proof (slice_to_length (los pool) (Z.min count MAX_CALCULATIONS)).
      unfold MAX_CALCULATIONS in *. lia.
  - intros Hcount. unfold Device_calculate_imeis.
    rewrite calculate_possible_imeis_unfold by by apply int_shown_min.
    destruct (imei_loop_form (rounds_of (Z.min count MAX_CALCULATIONS)) [] g)
      as (new & g' & H & Hlen & _).
    exists new, g'. split; [exact H|].
    rewrite Hlen. unfold rounds_of, range_len, MAX_CALCULATIONS. lia.
Qed.

Lemma Device_calculate_bounds_witness :
  ∃ l g', Device_calculate_imeis
            (Device_init (V := pyval) (time := nat) "0a1b2c3d" 0%nat 0%nat
               "phone" None) 500 zero_tape = Ok (l, g')
    ∧ length l = 100%nat.
Proof.
  destruct (Device_calculate_bounds remove_dups
    (Device_init (V := pyval) (time := nat) "0a1b2c3d" 0%nat 0%nat "phone" None)
    500 zero_tape remove_dups_listing) as (_ & Himei).
  destruct Himei as (l & g' & H & Hlen).
  - pose proof (Z.pow_nonneg 10 int_max_str_digits). lia.
  - exists l, g'. split; [exact H|exact Hlen].
Defined.

(** ** The settings of the console and what is shown *)

Lemma handle_verbose_command_range args level :
  0 ≤ level ≤ 3 → 0 ≤ handle_verbose_command args level ≤ 3.
Proof.
  intros Hl. unfold handle_verbose_command. destruct args as [|a args]; [done|].
  destruct (int_of_str a) as [z|e]; [|done].
  destruct (0 <=? z) eqn:H0; destruct (z <=? 3) eqn:H3; simpl; lia.
Qed.

Lemma handle_gps_command_mode args mode :
  mode ∈ GPS_MODES → handle_gps_command args mode ∈ GPS_MODES.
Proof.
  intros Hm. unfold handle_gps_command. destruct args as [|a args]; [done|].
  by case_bool_decide.
Qed.

(** From the settings that the console starts with, level 0 and mode
    "gps", any sequence of [verbose] and [gps] commands, with any
    arguments, leaves a verbosity level from 0 to 3 and one of the four
    modes of [GPS_MODES]. *)
Theorem console_settings_valid (verbose_cmds gps_cmds : list (list string)) :
  0 ≤ foldl (λ level args, handle_verbose_command args level) 0 verbose_cmds ≤ 3
  ∧ foldl (λ mode args, handle_gps_command args mode) "gps" gps_cmds ∈ GPS_MODES.
Proof.
  split.
  - assert (∀ level, 0 ≤ level ≤ 3 →
      0 ≤ foldl (λ level args, handle_verbose_command args level) level
            verbose_cmds ≤ 3) as H; [|apply H; lia].
    induction verbose_cmds as [|args cmds IH]; intros level Hl; [done|].
    cbn [foldl]. by apply IH, handle_verbose_command_range.
  - assert (∀ mode, mode ∈ GPS_MODES →
      foldl (λ mode args, handle_gps_command args mode) mode gps_cmds
        ∈ GPS_MODES) as H; [|apply H; left].
    induction gps_cmds as [|args cmds IH]; intros mode Hm; [done|].
    cbn [foldl]. by apply IH, handle_gps_command_mode.
Qed.

(** [display_device_details] lists the last [3 * level] points of the
    location history at the levels 1 to 3, and at level 0 the whole
    history: the slice [[-0:]] starts at the first point. *)
Theorem shown_history_spec {A} (level : Z) (history : list A) :
  0 ≤ level ≤ 3 →
  (level = 0 → shown_history level history = history)
  ∧ (1 ≤ level →
       shown_history level history
         = drop (length history - Z.to_nat (3 * level)) history
       ∧ length (shown_history level history)
         = (Z.to_nat (3 * level) `min` length history)%nat).
Proof.
  intros Hl. unfold shown_history, slice_from. split.
  - intros ->. done.
  - intros H1. assert (Z.min level 3 = level) as -> by lia.
    assert ((- level * 3 <? 0) = true) as -> by lia.
    replace (- (- level * 3)) with (3 * level) by lia.
    split; [done|]. rewrite length_drop. lia.
Qed.

Lemma shown_history_spec_witness :
  shown_history 0 [1; 2; 3; 4; 5] = [1; 2; 3; 4; 5]
  ∧ shown_history 1 [1; 2; 3; 4; 5] = [3; 4; 5].
Proof.
  split.
  - apply (shown_history_spec 0 [1; 2; 3; 4; 5]); [lia|done].
  - destruct (shown_history_spec 1 [1; 2; 3; 4; 5]) as [_ H]; [lia|].
    destruct H as [H _]; [lia|]. exact H.
Defined.

(** ** From the parser to the synthesis *)

(** An mcc or an mnc that is no string makes the sum of line 230 raise,
    once line 229 has printed the values. *)
Lemma calculate_raises_TypeError los d count g :
  1 ≤ count → int_shown count = true → imsi_values_shown d →
  (∀ s, base_mcc d ≠ PStr s) ∨ (∀ s, base_mnc d ≠ PStr s) →
  calculate_possible_imsis los d count g = Raise TypeError.
Proof.
  intros Hcount Hshown (Hm & Hn & Ht & Hp & Hc) Hns.
  rewrite calculate_possible_imsis_unfold by done.
  destruct (rounds_of_pos count Hcount) as [r ->].
  cbn [imsi_loop]. unfold imsi_step.
  rewrite (py_str_returns _ Hm), (py_str_returns _ Hn), (py_str_returns _ Ht).
  cbn [mbind result_bind].
  destruct (base_mcc d) as [m|zm|bm|], (base_mnc d) as [n|zn|bn|]; try done.
  destruct Hns as [H|H]; exfalso; by eapply H.
Qed.

(** A value that [str] does not print makes the synthesis raise
    [ValueError] before line 230 is reached. *)
Lemma calculate_raises_unprinted los d count g :
  1 ≤ count → ¬ imsi_values_shown d →
  calculate_possible_imsis los d count g = Raise ValueError.
Proof.
  intros Hcount Hns.
  destruct (int_shown count) eqn:Hshown; last first.
  { unfold calculate_possible_imsis. cbn [py_str]. by rewrite Hshown. }
  destruct (py_str (py_get d "pci" (PStr "0"))) as [p|e] eqn:Hp; last first.
  { unfold calculate_possible_imsis. rewrite (py_str_int _ Hshown), Hp.
    cbn [mbind result_bind]. by rewrite (py_str_exn _ _ Hp). }
  destruct (py_str (py_get d "ci" (PStr "0"))) as [c|e] eqn:Hc; last first.
  { unfold calculate_possible_imsis. rewrite (py_str_int _ Hshown), Hp, Hc.
    cbn [mbind result_bind]. by rewrite (py_str_exn _ _ Hc). }
  rewrite calculate_possible_imsis_unfold by (done || by eexists).
  destruct (rounds_of_pos count Hcount) as [r ->].
  cbn [imsi_loop]. unfold imsi_step.
  destruct (py_str (base_mcc d)) as [m|e] eqn:Hm; cbn [mbind result_bind];
    [|by rewrite (py_str_exn _ _ Hm)].
  destruct (py_str (base_mnc d)) as [n|e] eqn:Hn; cbn [mbind result_bind];
    [|by rewrite (py_str_exn _ _ Hn)].
  destruct (py_str (base_tac d)) as [t|e] eqn:Ht; cbn [mbind result_bind];
    [|by rewrite (py_str_exn _ _ Ht)].
  exfalso. apply Hns. unfold imsi_values_shown.
  rewrite Hm, Hn, Ht, Hp, Hc. repeat split; by eexists.
Qed.

(** When the mcc or the mnc read from the device data is not a string (an
    integer, as the ones that the parser stores are, a boolean or [None]),
    [calculate_possible_imsis] raises for every count of 1 or more that
    [str] prints, whatever the other parameters are: [TypeError] when [str]
    prints the five values, as line 230 adds the two and a string, and
    [ValueError] when it does not print one of them, which lines 223 to 229
    find first. *)
Theorem imsi_integer_prefix_raises los d count g :
  1 ≤ count → int_shown count = true →
  (∀ s, base_mcc d ≠ PStr s) ∨ (∀ s, base_mnc d ≠ PStr s) →
  (imsi_values_shown d →
     calculate_possible_imsis los d count g = Raise TypeError)
  ∧ (¬ imsi_values_shown d →
       calculate_possible_imsis los d count g = Raise ValueError).
Proof.
  intros Hcount Hshown Hns. split.
  - intros Hvals. by apply calculate_raises_TypeError.
  - intros Hvals. by apply calculate_raises_unprinted.
Qed.

Lemma imsi_integer_prefix_raises_witness :
  calculate_possible_imsis remove_dups
    {[ "mnc" := PInt 260; "tac" := PStr "not a number" ]} 10 zero_tape
    = Raise TypeError.
Proof.
  apply imsi_integer_prefix_raises.
  - lia.
  - by vm_compute.
  - right. intros s Hs. by vm_compute in Hs.
  - repeat split; eexists; by vm_compute.
Defined.

Lemma lte_lookup_hit k ms cell :
  k ∈ lte_names → Forall lte_groups ms → forallb lte_sized ms = true →
  lte_hits k ms ≠ [] →
  ∃ v, lte_lookup k ms cell = Some (PInt v) ∧ int_shown v = true.
Proof.
  intros Hk Hms Hsz Hne. unfold lte_lookup. rewrite bool_decide_true by done.
  destruct (last (lte_hits k ms)) as [m|] eqn:Hlast;
    [|by apply last_None in Hlast].
  apply last_Some_elem_of, list_elem_of_filter in Hlast as [Hmk Hm].
  rewrite forallb_forall in Hsz.
  assert (lte_sized m = true) as Hmsz by by apply Hsz, list_elem_of_In.
  unfold lte_sized in Hmsz. rewrite Hmk, bool_decide_true in Hmsz by done.
  rewrite Forall_forall in Hms. destruct (Hms m Hm) as (w & g & -> & Hg).
  change (group [w; g] 2) with g in *.
  destruct (int_of_str_signed g Hg Hmsz) as [v Hv]. rewrite Hv.
  exists v. split; [done|]. by eapply int_of_str_shown.
Qed.

Lemma lte_lookup_miss k ms cell :
  lte_hits k ms = [] → lte_lookup k ms cell = cell !! k.
Proof.
  intros Hnil. unfold lte_lookup. case_bool_decide; [|done]. by rewrite Hnil.
Qed.

Lemma lte_matches_groups content :
  Forall lte_groups (re_findall lte_re (chars content)).
Proof. apply re_findall_from_Forall, lte_re_groups. Qed.

(** What the synthesis reads in the [cell_info] of a parsed report under a
    key other than "location": the default, or an integer that [str]
    prints. *)
Lemma parsed_get content (cell : gmap string pyval) k dflt :
  (∀ k, cell !! k =
     lte_lookup k (re_findall lte_re (chars content)) (location_of (chars content))) →
  k ≠ "location" →
  py_get cell k (PStr dflt) = PStr dflt
  ∨ ∃ v, py_get cell k (PStr dflt) = PInt v ∧ int_shown v = true.
Proof.
  intros Hcell Hk. unfold py_get. rewrite Hcell.
  destruct (decide (k ∈ lte_names)) as [Hin|Hout].
  - destruct (lte_lookup_int k (re_findall lte_re (chars content))
      (location_of (chars content)) Hin) as [->|(v & -> & Hv)];
      [by apply location_of_lookup|by left|right; by exists v].
  - unfold lte_lookup. rewrite bool_decide_false by done.
    rewrite location_of_lookup by done. by left.
Qed.

Lemma parsed_get_shown content (cell : gmap string pyval) k dflt :
  (∀ k, cell !! k =
     lte_lookup k (re_findall lte_re (chars content)) (location_of (chars content))) →
  k ≠ "location" →
  returns (py_str (py_get cell k (PStr dflt))).
Proof.
  intros Hcell Hk.
  destruct (parsed_get content cell k dflt Hcell Hk) as [->|(v & -> & Hv)].
  - by eexists.
  - rewrite py_str_int by done. by eexists.
Qed.

Lemma parsed_values_shown content (cell : gmap string pyval) :
  (∀ k, cell !! k =
     lte_lookup k (re_findall lte_re (chars content)) (location_of (chars content))) →
  imsi_values_shown cell.
Proof.
  intros Hcell. unfold imsi_values_shown, base_mcc, base_mnc, base_tac.
  repeat split; by eapply parsed_get_shown.
Qed.

(** In the [cell_info] of a parsed report [str] prints the tac, [int]
    accepts the tac and the pci, and the cell-id is the default. *)
Lemma parsed_cell_integers content (cell : gmap string pyval) :
  (∀ k, cell !! k =
     lte_lookup k (re_findall lte_re (chars content)) (location_of (chars content))) →
  returns (py_str (base_tac cell)) ∧ returns (py_int (base_tac cell))
  ∧ returns (int_of_str (base_pci cell))
  ∧ base_ci cell = "0".
Proof.
  intros Hcell. split; [by eapply parsed_get_shown|]. split; [|split].
  - unfold base_tac.
    destruct (parsed_get content cell "tac" "0000" Hcell) as [->|(v & -> & Hv)];
      [done|by exists 0|by exists v].
  - unfold base_pci.
    destruct (parsed_get content cell "pci" "0" Hcell) as [->|(v & -> & Hv)];
      [done|by exists 0|].
    exists v. by apply int_of_str_of_Z.
  - unfold base_ci.
    destruct (parsed_get content cell "ci" "0" Hcell) as [->|(v & Hv & _)];
      [done|done|].
    exfalso. revert Hv. unfold py_get. rewrite Hcell. unfold lte_lookup.
    rewrite bool_decide_false by (apply (bool_decide_unpack _); by vm_compute).
    by rewrite location_of_lookup.
Qed.

(** A report in which the scan finds an mcc or an mnc cannot be given to
    the synthesis as it is: the parser stores the number as an integer,
    and on the [cell_info] of the report [calculate_possible_imsis] raises
    [TypeError] for every count of 1 or more that [str] prints. The text is
    one that the parser accepts. *)
Theorem parsed_mcc_breaks_synthesis now content k :
  k = "mcc" ∨ k = "mnc" →
  lte_hits k (re_findall lte_re (chars content)) ≠ [] →
  literals_sized content = true →
  ∃ r, parse_report_content now content = Ok r
    ∧ ∀ los count g, 1 ≤ count → int_shown count = true →
        calculate_possible_imsis los (cell_info r) count g = Raise TypeError.
Proof.
  intros Hk Hhit Hsized.
  destruct (parse_report_content_spec now content Hsized)
    as (nw & cell & _ & _ & Hcell & ->).
  eexists. split; [done|]. cbn [cell_info]. intros los count g Hcount Hshown.
  apply calculate_raises_TypeError; [done|done|by eapply parsed_values_shown|].
  destruct (lte_lookup_hit k (re_findall lte_re (chars content))
    (location_of (chars content))) as (v & Hv & _);
    [destruct Hk as [-> | ->]; apply (bool_decide_unpack _); by vm_compute
    |apply lte_matches_groups
    |by apply andb_true_iff in Hsized as [_ ?]
    |done|].
  destruct Hk as [-> | ->]; [left|right]; intros s.
  - unfold base_mcc, py_get. by rewrite Hcell, Hv.
  - unfold base_mnc, py_get. by rewrite Hcell, Hv.
Qed.

Lemma parsed_mcc_breaks_synthesis_witness :
  ∃ r, parse_report_content "t" "MCC: 310 tac: 5 pci: 7" = Ok r
    ∧ calculate_possible_imsis remove_dups (cell_info r) 1 zero_tape
        = Raise TypeError.
Proof.
  destruct (parsed_mcc_breaks_synthesis "t" "MCC: 310 tac: 5 pci: 7" "mcc")
    as (r & Hr & Hraise); [by left|by vm_compute|by vm_compute|].
  exists r. split; [exact Hr|]. apply Hraise; [lia|by vm_compute].
Defined.

(** On the [cell_info] of a report in which the scan finds neither an mcc
    nor an mnc, the loop of the synthesis goes through. *)
Lemma parsed_without_mcc_loop content (cell : gmap string pyval) :
  (∀ k, cell !! k =
     lte_lookup k (re_findall lte_re (chars content)) (location_of (chars content))) →
  lte_hits "mcc" (re_findall lte_re (chars content)) = [] →
  lte_hits "mnc" (re_findall lte_re (chars content)) = [] →
  base_mcc cell = PStr "310" ∧ base_mnc cell = PStr "260"
  ∧ returns (int_of_str (base_pci cell)) ∧ returns (int_of_str (base_ci cell))
  ∧ ∃ t p,
      py_int (base_tac cell) = Ok t ∧ int_of_str (base_pci cell) = Ok p
      ∧ math_imsi (base_mcc cell) (base_mnc cell) (base_tac cell)
          (base_pci cell) (base_ci cell) = Ok "3102600000000000"
      ∧ math_candidate "310" "260" t p 0 = "3102600000000000".
Proof.
  intros Hcell Hmcc Hmnc.
  assert (base_mcc cell = PStr "310") as Hm.
  { unfold base_mcc, py_get.
    by rewrite Hcell, lte_lookup_miss, location_of_lookup. }
  assert (base_mnc cell = PStr "260") as Hn.
  { unfold base_mnc, py_get.
    by rewrite Hcell, lte_lookup_miss, location_of_lookup. }
  destruct (parsed_cell_integers content cell Hcell)
    as (_ & [t Ht] & [p Hp] & Hci).
  assert (math_candidate "310" "260" t p 0 = "3102600000000000") as Hmath.
  { unfold math_candidate. by rewrite Z.mul_0_r. }
  split; [done|]. split; [done|]. split; [by exists p|].
  split; [rewrite Hci; by exists 0|].
  exists t, p. split; [done|]. split; [done|]. split; [|done].
  rewrite Hm, Hn, Hci.
  rewrite (math_imsi_ok _ _ _ _ _ t p 0) by done. by rewrite <- Hmath.
Qed.

(** A report in which the scan finds neither an mcc nor an mnc can: on its
    [cell_info] the synthesis returns for every count that [str] prints,
    whatever else the report holds, and every candidate starts with the
    default "310260". The text is one that the parser accepts. *)
Theorem parsed_without_mcc_synthesis now content :
  lte_hits "mcc" (re_findall lte_re (chars content)) = [] →
  lte_hits "mnc" (re_findall lte_re (chars content)) = [] →
  literals_sized content = true →
  ∃ r, parse_report_content now content = Ok r
    ∧ ∀ los count g, set_listing los → int_shown count = true →
        ∃ l g', calculate_possible_imsis los (cell_info r) count g = Ok (l, g')
          ∧ ∀ x, x ∈ l → str_take 6 x = "310260".
Proof.
  intros Hmcc Hmnc Hsized.
  destruct (parse_report_content_spec now content Hsized)
    as (nw & cell & _ & _ & Hcell & ->).
  eexists. split; [done|]. cbn [cell_info]. intros los count g Hlos Hshown.
  destruct (parsed_without_mcc_loop content cell Hcell Hmcc Hmnc)
    as (Hm & Hn & Hp & Hc & _).
  destruct (parsed_cell_integers content cell Hcell) as (Hs & Ht & _).
  destruct (imsi_loop_ok "310" "260" (base_tac cell) (base_pci cell)
    (base_ci cell) (rounds_of count) 0 [] g Hs Ht Hp Hc)
    as (pool & g' & Hloop & _ & Hpool).
  exists (slice_to (los pool) count), g'.
  rewrite (calculate_possible_imsis_strings _ _ _ _ "310" "260") by done.
  rewrite Hloop. split; [done|].
  intros x Hx%slice_to_elem. apply (set_listing_elem _ _ _ Hlos) in Hx.
  rewrite Forall_forall in Hpool.
  apply (imsi_shape_prefix "310" "260"), Hpool, Hx.
Qed.

Lemma parsed_without_mcc_synthesis_witness :
  ∃ r l g', parse_report_content "t" "tac: 5 PCI: -7 cid: 12345" = Ok r
    ∧ calculate_possible_imsis remove_dups (cell_info r) 2 zero_tape = Ok (l, g')
    ∧ ∀ x, x ∈ l → str_take 6 x = "310260".
Proof.
  destruct (parsed_without_mcc_synthesis "t" "tac: 5 PCI: -7 cid: 12345")
    as (r & Hr & Hcalc); [by vm_compute..|].
  destruct (Hcalc remove_dups 2 zero_tape remove_dups_listing)
    as (l & g' & Hl & Hpre); [by vm_compute|].
  exists r, l, g'. split; [exact Hr|]. split; [exact Hl|exact Hpre].
Defined.

(** ** The cell-id between the parser and the synthesis *)





(** ** Tracking a device *)

(** The [track device] command makes a phone device with the status given,
    adds the location to it and adds it to the registry. Afterwards the
    device found under its identifier has that location as
    "last_location" and the status. Its history is the one new point when
    the identifier is new; when the identifier was there already, the
    stored history stays as it was and the new point is not in the
    registry. *)
Theorem track_device_stored {V time} (devices : list (string * Device V time))
    (new_id stamp : string) (t1 t2 now : time) (status location : V) :
  let device :=
    Device_add_location
      (Device_init new_id t1 t2 "phone" (Some {[ "status" := status ]}))
      location stamp in
  ∃ stored,
    get_device (add_device devices device now) new_id = Some stored
    ∧ data stored !! "last_location" = Some location
    ∧ data stored !! "status" = Some status
    ∧ match get_device devices new_id with
      | None =>
          location_history stored =
            [{| point_timestamp := stamp; point_location := location |}]
      | Some existing => location_history stored = location_history existing
      end.
Proof.
  intros device. unfold get_device, add_device.
  change (dev_id device) with new_id.
  destruct (od_get new_id devices) as [existing|] eqn:Hget.
  - exists (Device_update existing (data device) now).
    split; [apply od_get_set_eq|]. rewrite Device_update_data.
    split; [|split; [|done]].
    + apply lookup_union_Some_l. subst device. cbn [Device_add_location data].
      by rewrite lookup_insert_eq.
    + apply lookup_union_Some_l. subst device.
      cbn [Device_add_location Device_init data default].
      rewrite lookup_insert_ne by done. apply lookup_singleton_eq.
  - exists device. split; [apply od_get_set_eq|]. subst device.
    cbn [Device_add_location Device_init data default location_history].
    split; [by rewrite lookup_insert_eq|]. split; [|done].
    rewrite lookup_insert_ne by done. apply lookup_singleton_eq.
Qed.
